(** * Hotkey registry and capture subsystem of create_rule_admin_gui_simple.py

    A shallow embedding of the binding codec ([parse_hotkey_string],
    [hotkey_to_string]), of the hotkey thread ([hotkey_thread_func]), of the
    capture dialog ([capture_hotkey_dialog]) and of the event dispatcher
    ([App.check_queue], [App.handle_hotkey]), followed by the properties
    the specification states about them, each proved or refuted on the
    embedding.

    Conventions of the embedding:
    - a Python [int] is a [Z]; [&] and [|] are [Z.land] and [Z.lor];
    - a Python [str] is the list of its code points ([list Z]); the
      character tables are those of CPython 3.11 (Unicode 14): [isspace],
      [isdigit] and the digits of [int] for all of Unicode, [lower] and
      [upper] for the code points below 256; above 255 case mapping
      leaves a character as it is, which is where the embedding stops
      being exact;
    - a dict is the list of its items in iteration order;
    - a raised exception is a value of [exn] carried by [Raise];
    - the two threads are functions of what their environment supplies:
      the hotkey thread of the commands it finds queued and of what
      [GetMessageW] does in each round of its loop, the dialog of its
      timer calls (with the clock reading and the key states sampled) and
      button presses, in the order they happen;
    - calls into user32 are explicit state passing over the hotkey table
      of the thread; whether the system accepts a registration is a
      parameter, and so is the element [next(iter(s))] takes from a set;
    - the answer of the user to the confirmation that [handle_hotkey]
      asks for comes with the queue item that brings the question up;
    - the class HotkeysDialog, which opens the capture dialog, is not in
      the source file: what it does with the flag is taken from the
      specification ([start_session], [end_session]);
    - debug logging ([dbg]), label updates ([info.set]) and the entry
      widget write to no state the properties read, and are left out.

    The first part holds the definitions, the second the proofs. *)

From Stdlib Require Import ZArith List Bool Lia String Ascii DecimalString.
Import ListNotations.
Open Scope Z_scope.

(* ===================================================================== *)
(** ** Python strings *)

Module PyStr.

Definition str := list Z.

(** A literal of the source, as code points. *)
Definition lit (s : string) : str :=
  map (fun a => Z.of_N (N_of_ascii a)) (list_ascii_of_string s).

Fixpoint str_eqb (a b : str) : bool :=
  match a, b with
  | [], [] => true
  | x :: a', y :: b' => (x =? y) && str_eqb a' b'
  | _, _ => false
  end.

Definition between (lo hi c : Z) : bool := (lo <=? c) && (c <=? hi).

Definition mem (c : Z) (l : list Z) : bool := existsb (Z.eqb c) l.

(** [str.isspace] on one character: the characters [str.strip] removes. *)
Definition isspace (c : Z) : bool :=
  between 0x09 0x0D c || between 0x1C 0x20 c
  || mem c [0x85; 0xA0; 0x1680; 0x2028; 0x2029; 0x202F; 0x205F; 0x3000]
  || between 0x2000 0x200A c.

Fixpoint lstrip (s : str) : str :=
  match s with
  | [] => []
  | c :: s' => if isspace c then lstrip s' else s
  end.

Definition rstrip (s : str) : str := rev (lstrip (rev s)).

Definition strip (s : str) : str := rstrip (lstrip s).

(** [s.split(sep)] for a one-character separator: never an empty list. *)
Fixpoint split (sep : Z) (s : str) : list str :=
  match s with
  | [] => [[]]
  | c :: s' =>
      if c =? sep then [] :: split sep s'
      else match split sep s' with
           | [] => [[c]]
           | p :: ps => (c :: p) :: ps
           end
  end.

Fixpoint join (sep : str) (parts : list str) : str :=
  match parts with
  | [] => []
  | [p] => p
  | p :: ps => p ++ sep ++ join sep ps
  end.

Definition lower_char (c : Z) : Z :=
  if between 0x41 0x5A c || between 0xC0 0xD6 c || between 0xD8 0xDE c
  then c + 32 else c.

(** [str.upper] may lengthen the text (sharp s) or leave Latin-1. *)
Definition upper_char (c : Z) : str :=
  if between 0x61 0x7A c || between 0xE0 0xF6 c || between 0xF8 0xFE c
  then [c - 32]
  else if c =? 0xB5 then [0x39C]
  else if c =? 0xDF then [0x53; 0x53]
  else if c =? 0xFF then [0x178]
  else [c].

Definition lower (s : str) : str := map lower_char s.
Definition upper (s : str) : str := flat_map upper_char s.

(** The characters [str.isdigit] accepts, and among them the decimal
    digits, which alone [int] reads; each range of decimal digits is made
    of runs of the ten digits in order, from a zero. *)
Definition digit_ranges : list (Z * Z) :=
  [ (0x30, 0x39); (0xB2, 0xB3); (0xB9, 0xB9); (0x660, 0x669); (0x6F0, 0x6F9);
    (0x7C0, 0x7C9); (0x966, 0x96F); (0x9E6, 0x9EF); (0xA66, 0xA6F); (0xAE6, 0xAEF);
    (0xB66, 0xB6F); (0xBE6, 0xBEF); (0xC66, 0xC6F); (0xCE6, 0xCEF); (0xD66, 0xD6F);
    (0xDE6, 0xDEF); (0xE50, 0xE59); (0xED0, 0xED9); (0xF20, 0xF29); (0x1040, 0x1049);
    (0x1090, 0x1099); (0x1369, 0x1371); (0x17E0, 0x17E9); (0x1810, 0x1819);
    (0x1946, 0x194F); (0x19D0, 0x19DA); (0x1A80, 0x1A89); (0x1A90, 0x1A99);
    (0x1B50, 0x1B59); (0x1BB0, 0x1BB9); (0x1C40, 0x1C49); (0x1C50, 0x1C59);
    (0x2070, 0x2070); (0x2074, 0x2079); (0x2080, 0x2089); (0x2460, 0x2468);
    (0x2474, 0x247C); (0x2488, 0x2490); (0x24EA, 0x24EA); (0x24F5, 0x24FD);
    (0x24FF, 0x24FF); (0x2776, 0x277E); (0x2780, 0x2788); (0x278A, 0x2792);
    (0xA620, 0xA629); (0xA8D0, 0xA8D9); (0xA900, 0xA909); (0xA9D0, 0xA9D9);
    (0xA9F0, 0xA9F9); (0xAA50, 0xAA59); (0xABF0, 0xABF9); (0xFF10, 0xFF19);
    (0x104A0, 0x104A9); (0x10A40, 0x10A43); (0x10D30, 0x10D39); (0x10E60, 0x10E68);
    (0x11052, 0x1105A); (0x11066, 0x1106F); (0x110F0, 0x110F9); (0x11136, 0x1113F);
    (0x111D0, 0x111D9); (0x112F0, 0x112F9); (0x11450, 0x11459); (0x114D0, 0x114D9);
    (0x11650, 0x11659); (0x116C0, 0x116C9); (0x11730, 0x11739); (0x118E0, 0x118E9);
    (0x11950, 0x11959); (0x11C50, 0x11C59); (0x11D50, 0x11D59); (0x11DA0, 0x11DA9);
    (0x16A60, 0x16A69); (0x16AC0, 0x16AC9); (0x16B50, 0x16B59); (0x1D7CE, 0x1D7FF);
    (0x1E140, 0x1E149); (0x1E2F0, 0x1E2F9); (0x1E950, 0x1E959); (0x1F100, 0x1F10A);
    (0x1FBF0, 0x1FBF9) ].

Definition decimal_ranges : list (Z * Z) :=
  [ (0x30, 0x39); (0x660, 0x669); (0x6F0, 0x6F9); (0x7C0, 0x7C9); (0x966, 0x96F);
    (0x9E6, 0x9EF); (0xA66, 0xA6F); (0xAE6, 0xAEF); (0xB66, 0xB6F); (0xBE6, 0xBEF);
    (0xC66, 0xC6F); (0xCE6, 0xCEF); (0xD66, 0xD6F); (0xDE6, 0xDEF); (0xE50, 0xE59);
    (0xED0, 0xED9); (0xF20, 0xF29); (0x1040, 0x1049); (0x1090, 0x1099);
    (0x17E0, 0x17E9); (0x1810, 0x1819); (0x1946, 0x194F); (0x19D0, 0x19D9);
    (0x1A80, 0x1A89); (0x1A90, 0x1A99); (0x1B50, 0x1B59); (0x1BB0, 0x1BB9);
    (0x1C40, 0x1C49); (0x1C50, 0x1C59); (0xA620, 0xA629); (0xA8D0, 0xA8D9);
    (0xA900, 0xA909); (0xA9D0, 0xA9D9); (0xA9F0, 0xA9F9); (0xAA50, 0xAA59);
    (0xABF0, 0xABF9); (0xFF10, 0xFF19); (0x104A0, 0x104A9); (0x10D30, 0x10D39);
    (0x11066, 0x1106F); (0x110F0, 0x110F9); (0x11136, 0x1113F); (0x111D0, 0x111D9);
    (0x112F0, 0x112F9); (0x11450, 0x11459); (0x114D0, 0x114D9); (0x11650, 0x11659);
    (0x116C0, 0x116C9); (0x11730, 0x11739); (0x118E0, 0x118E9); (0x11950, 0x11959);
    (0x11C50, 0x11C59); (0x11D50, 0x11D59); (0x11DA0, 0x11DA9); (0x16A60, 0x16A69);
    (0x16AC0, 0x16AC9); (0x16B50, 0x16B59); (0x1D7CE, 0x1D7FF); (0x1E140, 0x1E149);
    (0x1E2F0, 0x1E2F9); (0x1E950, 0x1E959); (0x1FBF0, 0x1FBF9) ].

Definition in_range (c : Z) (r : Z * Z) : bool := between (fst r) (snd r) c.

Definition isdigit_char (c : Z) : bool := existsb (in_range c) digit_ranges.

(** [s.isdigit()]: false on the empty text. *)
Definition isdigit (s : str) : bool :=
  match s with
  | [] => false
  | _ => forallb isdigit_char s
  end.

(** The value of a decimal digit. *)
Definition decimal_value (c : Z) : option Z :=
  match find (in_range c) decimal_ranges with
  | Some r => Some ((c - fst r) mod 10)
  | None => None
  end.

(** [sys.get_int_max_str_digits()], as the interpreter starts. *)
Definition int_max_str_digits : Z := 4300.

(** One more digit read; [None] once a character is not a decimal digit. *)
Definition int_step (acc : option Z) (c : Z) : option Z :=
  match acc, decimal_value c with
  | Some n, Some d => Some (10 * n + d)
  | _, _ => None
  end.

(** [int(s)] on a text that [isdigit] accepts, the only texts the program
    converts: [None] is the ValueError raised for a digit that is not
    decimal (a superscript digit, say), and for a text of more digits than
    the interpreter converts. *)
Definition int (s : str) : option Z :=
  match s with
  | [] => None
  | _ => if int_max_str_digits <? Z.of_nat (List.length s) then None
         else fold_left int_step s (Some 0)
  end.

(** [str(n)] for an integer. *)
Definition str_of_int (n : Z) : str := lit (NilZero.string_of_int (Z.to_int n)).

(** [chr(n)]: [None] is the ValueError outside the code point range. *)
Definition chr (n : Z) : option str :=
  if between 0 0x10FFFF n then Some [n] else None.

Definition startswith (s p : str) : bool := str_eqb (firstn (List.length p) s) p.

Definition nonempty (s : str) : bool :=
  match s with [] => false | _ => true end.

End PyStr.

Import PyStr.

(* ===================================================================== *)
(** ** Binding codec *)

Definition MOD_ALT : Z := 0x0001.
Definition MOD_CONTROL : Z := 0x0002.
Definition MOD_SHIFT : Z := 0x0004.
Definition MOD_WIN : Z := 0x0008.

Definition NAMED_VK : list (Z * str) :=
  [ (0x20, lit "Space"); (0x09, lit "Tab"); (0x0D, lit "Enter"); (0x1B, lit "Esc");
    (0x26, lit "Up"); (0x28, lit "Down"); (0x25, lit "Left"); (0x27, lit "Right");
    (0x2D, lit "Ins"); (0x2E, lit "Del"); (0x24, lit "Home"); (0x23, lit "End");
    (0x21, lit "PageUp"); (0x22, lit "PageDown") ].

(** The dict [named] local to [parse_hotkey_string]. *)
Definition named : list (str * Z) :=
  [ (lit "space", 0x20); (lit "tab", 0x09); (lit "enter", 0x0D); (lit "return", 0x0D);
    (lit "esc", 0x1B); (lit "escape", 0x1B); (lit "up", 0x26); (lit "down", 0x28);
    (lit "left", 0x25); (lit "right", 0x27); (lit "ins", 0x2D); (lit "del", 0x2E);
    (lit "home", 0x24); (lit "end", 0x23); (lit "pageup", 0x21); (lit "pagedown", 0x22) ].

Fixpoint dict_get {K V : Type} (eqb : K -> K -> bool) (d : list (K * V)) (k : K) : option V :=
  match d with
  | [] => None
  | (k', v) :: d' => if eqb k k' then Some v else dict_get eqb d' k
  end.

(** Exceptions the codec and its callers can see. *)
Inductive exn : Type :=
| EmptyHotkey                 (* ValueError("Empty hotkey") *)
| NoKeySpecified              (* ValueError("No key specified") *)
| InvalidFunctionKey          (* ValueError("Invalid function key") *)
| UnknownKeyName (key : str)  (* ValueError(f"Unknown key name: {key}") *)
| IntValueError               (* int() on digits it does not convert *)
| OrdTypeError                (* ord() on an upper-cased text of length 2 *)
| NotAString.                 (* the value has no .strip *)

Inductive result (A : Type) : Type :=
| Ok (a : A)
| Raise (e : exn).
Arguments Ok {A} a.
Arguments Raise {A} e.

Definition in_tuple (s : str) (names : list str) : bool := existsb (str_eqb s) names.

(** The four modifier branches of the loop over [parts]. *)
Definition modifier_of (p : str) : option Z :=
  let pp := lower p in
  if in_tuple pp [lit "ctrl"; lit "control"] then Some MOD_CONTROL
  else if in_tuple pp [lit "alt"] then Some MOD_ALT
  else if in_tuple pp [lit "shift"] then Some MOD_SHIFT
  else if in_tuple pp [lit "win"; lit "windows"] then Some MOD_WIN
  else None.

(** One round of [for p in parts], on the pair [(mods, key)]. *)
Definition parse_step (st : Z * option str) (p : str) : Z * option str :=
  let '(mods, key) := st in
  match modifier_of p with
  | Some m => (Z.lor mods m, key)
  | None => (mods, Some p)
  end.

(** [[p.strip() for p in s.split('+') if p.strip()]] *)
Definition parts_of (s : str) : list str :=
  filter nonempty (map strip (split 0x2B s)).

(** The code after the loop, from [key] to [vk]. *)
Definition key_to_vk (key : str) : result Z :=
  if startswith (upper key) (lit "F") && isdigit (tl key) then
    match int (tl key) with
    | None => Raise IntValueError
    | Some n =>
        if (1 <=? n) && (n <=? 24) then Ok (0x70 + (n - 1))
        else Raise InvalidFunctionKey
    end
  else if (Z.of_nat (List.length key) =? 1) then
    match upper key with
    | [c] => Ok c
    | _ => Raise OrdTypeError
    end
  else
    match dict_get str_eqb named (lower key) with
    | Some vk => Ok vk
    | None => Raise (UnknownKeyName key)
    end.

Definition parse_hotkey_string (s : str) : result (Z * Z) :=
  let s := strip s in
  if negb (nonempty s) then Raise EmptyHotkey
  else
    let parts := parts_of s in
    let '(mods, key) := fold_left parse_step parts (0, None) in
    match key with
    | None => Raise NoKeySpecified
    | Some key =>
        match key_to_vk key with
        | Ok vk => Ok (mods, vk)
        | Raise e => Raise e
        end
    end.

Definition flag (mods m : Z) (name : string) : list str :=
  if Z.land mods m =? 0 then [] else [lit name].

Definition hotkey_to_string (mods vk : Z) : str :=
  let parts :=
    flag mods MOD_CONTROL "Ctrl" ++ flag mods MOD_ALT "Alt"
    ++ flag mods MOD_SHIFT "Shift" ++ flag mods MOD_WIN "Win" in
  let key :=
    match dict_get Z.eqb NAMED_VK vk with
    | Some name => name
    | None =>
        if (0x70 <=? vk) && (vk <=? 0x87) then lit "F" ++ str_of_int (vk - 0x6F)
        else match chr vk with
             | Some c => upper c
             | None => str_of_int vk
             end
    end in
  join (lit "+") (parts ++ [key]).

(** The range [poll] scans. *)
Definition VK_MIN : Z := 1.
Definition VK_MAX : Z := 254.

(** The keys [poll] skips in its scan: Ctrl, Alt, Shift and both Win keys.
    The codes of the left and of the right Shift, Ctrl and Alt key
    (0xA0..0xA5) are not among them. *)
Definition is_modifier_vk (vk : Z) : bool := mem vk [0x11; 0x12; 0x10; 0x5B; 0x5C].

(** Key codes whose text [hotkey_to_string] produces is read back as the
    same code: a named key, a function key, or a character that is not
    white space, not the separator, and its own upper case. *)
Definition roundtrip_key (vk : Z) : bool :=
  match dict_get Z.eqb NAMED_VK vk with
  | Some _ => true
  | None =>
      between 0x70 0x87 vk
      || (negb (isspace vk) && negb (vk =? 0x2B) && str_eqb (upper_char vk) [vk])
  end.

Definition parses_to (r : result (Z * Z)) (mods vk : Z) : bool :=
  match r with
  | Ok (m, v) => (m =? mods) && (v =? vk)
  | Raise _ => false
  end.

Fixpoint zseq (lo : Z) (n : nat) : list Z :=
  match n with
  | O => []
  | S n' => lo :: zseq (lo + 1) n'
  end.

Definition roundtrip_agrees (mods vk : Z) : bool :=
  Bool.eqb (roundtrip_key vk)
           (parses_to (parse_hotkey_string (hotkey_to_string mods vk)) mods vk).

(** The fields of a text between its separators: a field has none. *)
Definition no_plus (f : str) : bool := negb (mem 0x2B f).

(** A field that the loop of [parse_hotkey_string] takes as the key: it is
    not blank and is not one of the modifier names. *)
Definition key_field (f : str) : bool :=
  no_plus f && nonempty (strip f)
  && match modifier_of (strip f) with Some _ => false | None => true end.

(** The two components of the loop over [parts], each on its own. *)
Definition mods_of (parts : list str) (mods : Z) : Z :=
  fold_left (fun m p => match modifier_of p with Some x => Z.lor m x | None => m end)
            parts mods.

Definition last_key (parts : list str) (key : option str) : option str :=
  fold_left (fun k p => match modifier_of p with Some _ => k | None => Some p end)
            parts key.

(* ===================================================================== *)
(** ** The hotkey thread *)

Definition ACTION_IDS : list (str * Z) :=
  [ (lit "create", 1); (lit "toggle", 2); (lit "delete", 3); (lit "suspend_enh", 4) ].

Definition DEFAULT_HOTKEYS : list (str * str) :=
  [ (lit "create", lit "Ctrl+Alt+C"); (lit "toggle", lit "Ctrl+Alt+T");
    (lit "delete", lit "Ctrl+Alt+D"); (lit "suspend_enh", lit "Ctrl+Alt+E") ].

Definition WM_HOTKEY : Z := 0x0312.

(** A value of the binding map.  The map comes from a JSON file, so a value
    need not be a text; on any other value [s.strip()] raises. *)
Inductive pyval : Type :=
| PStr (s : str)
| POther.

(** A binding map: a dict in its iteration order. *)
Definition hotmap := list (str * pyval).

Definition parse_value (v : pyval) : result (Z * Z) :=
  match v with
  | PStr s => parse_hotkey_string s
  | POther => Raise NotAString
  end.

(** The second component of [failed]. *)
Inductive reason : Type :=
| UnknownActionId                    (* "Unknown action id" *)
| ParseFailed (e : exn)              (* str(e) *)
| RegisterHotKeyFailed (hk : pyval). (* f"RegisterHotKey failed for {hk_str}" *)

(** What the thread puts on a response queue. *)
Inductive response : Type :=
| RespOk                                   (* ("ok",) *)
| RespFailed (action : str) (why : reason) (* ("failed", action, reason) *)
| RespStopped.                             (* ("stopped",) *)

(** A command tuple; the response queue is named by a number and may be
    missing.  [Skip] is a command that is falsy or has another tag. *)
Inductive command : Type :=
| Register (hm : hotmap) (resp_q : option nat)
| Stop (resp_q : option nat)
| Skip.

Inductive fault : Type :=
| GetMessageFailed        (* "GetMessageW returned -1 in hotkey thread" *)
| Traceback (tb : str).   (* traceback.format_exc() *)

(** What the thread puts on the event queue. *)
Inductive event : Type :=
| Fired (id : Z)      (* ("hotkey", wParam) *)
| Fault (f : fault).  (* ("error", message) *)

(** The hotkey table the system keeps for this thread: id, modifiers, key. *)
Definition table := list (Z * (Z * Z)).

(** What one call of [GetMessageW] does. *)
Inductive getmessage : Type :=
| GM_quit                          (* returns 0: WM_QUIT *)
| GM_error                         (* returns -1 *)
| GM_message (message wParam : Z)  (* returns another value, [msg] filled *)
| GM_raises (tb : str).            (* the call raises *)

Record thread : Type := mkThread {
  registered_ids : list Z;
  os_hotkeys : table;
  event_queue : list event;
  responses : list (nat * response);
  running : bool
}.

Definition UnregisterHotKey (t : table) (aid : Z) : table :=
  filter (fun e => negb (fst e =? aid)) t.

(** [for aid in registered_ids: UnregisterHotKey(None, aid)] *)
Definition unregister_all (ids : list Z) (t : table) : table :=
  fold_left UnregisterHotKey ids t.

Definition put (resp_q : option nat) (r : response) (rs : list (nat * response)) :
  list (nat * response) :=
  match resp_q with
  | Some q => rs ++ [(q, r)]
  | None => rs
  end.

Section Thread.

(** Whether the system accepts [RegisterHotKey(None, aid, mods, vk)] given
    the hotkeys the thread already holds (a combination owned by another
    process is refused, for instance). *)
Variable accepts : table -> Z -> Z -> Z -> bool.

Definition RegisterHotKey (t : table) (aid mods vk : Z) : table * bool :=
  if accepts t aid mods vk then (t ++ [(aid, (mods, vk))], true) else (t, false).

(** [for action, hk_str in hotmap.items()] with its three [break]s; gives
    [registered_ids], the table and [failed]. *)
Fixpoint register_loop (hm : hotmap) (ids : list Z) (t : table) :
  list Z * table * option (str * reason) :=
  match hm with
  | [] => (ids, t, None)
  | (action, hk_str) :: rest =>
      match dict_get str_eqb ACTION_IDS action with
      | None => (ids, t, Some (action, UnknownActionId))
      | Some aid =>
          match parse_value hk_str with
          | Raise e => (ids, t, Some (action, ParseFailed e))
          | Ok (mods, vk) =>
              let '(t', ok) := RegisterHotKey t aid mods vk in
              if ok then register_loop rest (ids ++ [aid]) t'
              else (ids, t', Some (action, RegisterHotKeyFailed hk_str))
          end
      end
  end.

(** The branch [cmd[0] == "register"]. *)
Definition do_register (hm : hotmap) (resp_q : option nat) (th : thread) : thread :=
  let t0 := unregister_all (registered_ids th) (os_hotkeys th) in
  let '(ids, t1, failed) := register_loop hm [] t0 in
  match failed with
  | Some (action, why) =>
      mkThread [] (unregister_all ids t1) (event_queue th)
               (put resp_q (RespFailed action why) (responses th)) (running th)
  | None =>
      mkThread ids t1 (event_queue th) (put resp_q RespOk (responses th)) (running th)
  end.

(** The branch [cmd[0] == "stop"], which returns from the thread function. *)
Definition do_stop (resp_q : option nat) (th : thread) : thread :=
  mkThread [] (unregister_all (registered_ids th) (os_hotkeys th)) (event_queue th)
           (put resp_q RespStopped (responses th)) false.

Definition handle_command (c : command) (th : thread) : thread :=
  match c with
  | Register hm resp_q => do_register hm resp_q th
  | Stop resp_q => do_stop resp_q th
  | Skip => th
  end.

(** The inner [while True] over [cmd_queue.get_nowait()]: the commands
    queued at that moment, until the queue is empty or a stop returns. *)
Fixpoint drain (cmds : list command) (th : thread) : thread :=
  match cmds with
  | [] => th
  | c :: rest => if running th then drain rest (handle_command c th) else th
  end.

(** The code after [GetMessageW], and the handler of the outer [try]. *)
Definition after_getmessage (gm : getmessage) (th : thread) : thread :=
  match gm with
  | GM_quit =>
      mkThread (registered_ids th) (os_hotkeys th) (event_queue th) (responses th) false
  | GM_error =>
      mkThread (registered_ids th) (os_hotkeys th)
               (event_queue th ++ [Fault GetMessageFailed]) (responses th) true
  | GM_message message wParam =>
      mkThread (registered_ids th) (os_hotkeys th)
               (if message =? WM_HOTKEY then event_queue th ++ [Fired wParam]
                else event_queue th)
               (responses th) true
  | GM_raises tb =>
      mkThread (registered_ids th) (unregister_all (registered_ids th) (os_hotkeys th))
               (event_queue th ++ [Fault (Traceback tb)]) (responses th) false
  end.

(** One round of the outer [while True]: the commands found queued, then
    one [GetMessageW]. *)
Definition iteration (th : thread) (inp : list command * getmessage) : thread :=
  if running th then
    let th' := drain (fst inp) th in
    if running th' then after_getmessage (snd inp) th' else th'
  else th.

Definition thread_start : thread := mkThread [] [] [] [] true.

(** The thread function on the rounds its environment supplies. *)
Definition hotkey_thread_func (inputs : list (list command * getmessage)) : thread :=
  fold_left iteration inputs thread_start.

End Thread.

(** An entry of a binding map and the hotkey it stands for. *)
Definition binding_of (entry : str * pyval) (h : Z * (Z * Z)) : Prop :=
  dict_get str_eqb ACTION_IDS (fst entry) = Some (fst h)
  /\ parse_value (snd entry) = Ok (snd h).

(** Every entry of the map is registered in turn, from table [t] to [t']. *)
Inductive registers (accepts : table -> Z -> Z -> Z -> bool) :
  table -> hotmap -> table -> Prop :=
| registers_nil t : registers accepts t [] t
| registers_cons t action hk aid mods vk rest t' :
    dict_get str_eqb ACTION_IDS action = Some aid ->
    parse_value hk = Ok (mods, vk) ->
    accepts t aid mods vk = true ->
    registers accepts (t ++ [(aid, (mods, vk))]) rest t' ->
    registers accepts t ((action, hk) :: rest) t'.

(** The entry cannot be registered on table [t], and why. *)
Inductive entry_fails (accepts : table -> Z -> Z -> Z -> bool) (t : table) :
  str * pyval -> reason -> Prop :=
| fails_unknown action hk :
    dict_get str_eqb ACTION_IDS action = None ->
    entry_fails accepts t (action, hk) UnknownActionId
| fails_parse action hk aid e :
    dict_get str_eqb ACTION_IDS action = Some aid ->
    parse_value hk = Raise e ->
    entry_fails accepts t (action, hk) (ParseFailed e)
| fails_rejected action hk aid mods vk :
    dict_get str_eqb ACTION_IDS action = Some aid ->
    parse_value hk = Ok (mods, vk) ->
    accepts t aid mods vk = false ->
    entry_fails accepts t (action, hk) (RegisterHotKeyFailed hk).

(** The system table holds nothing the thread does not list. *)
Definition consistent (th : thread) : Prop :=
  forall e, In e (os_hotkeys th) -> In (fst e) (registered_ids th).

(** Two policies of the system, to run the thread on: one that accepts
    every registration, one that refuses a combination the thread holds
    already. *)
Definition accept_all : table -> Z -> Z -> Z -> bool := fun _ _ _ _ => true.

Definition accept_unowned (t : table) (aid mods vk : Z) : bool :=
  negb (existsb (fun e => (fst (snd e) =? mods) && (snd (snd e) =? vk)) t).

Definition as_hotmap (m : list (str * str)) : hotmap :=
  map (fun e => (fst e, PStr (snd e))) m.

(* ===================================================================== *)
(** ** The capture dialog *)

Definition is_empty {A : Type} (l : list A) : bool :=
  match l with [] => true | _ => false end.

(** [GetAsyncKeyState(vk) & 0x8000], as a truth value. *)
Definition key_down (GetAsyncKeyState : Z -> Z) (vk : Z) : bool :=
  negb (Z.land (GetAsyncKeyState vk) 0x8000 =? 0).

(** The modifier mask [poll] builds from the five modifier keys. *)
Definition sample_mods (keys : Z -> Z) : Z :=
  let mods := 0 in
  let mods := if key_down keys 0x11 then Z.lor mods MOD_CONTROL else mods in
  let mods := if key_down keys 0x12 then Z.lor mods MOD_ALT else mods in
  let mods := if key_down keys 0x10 then Z.lor mods MOD_SHIFT else mods in
  let mods := if key_down keys 0x5B || key_down keys 0x5C
              then Z.lor mods MOD_WIN else mods in
  mods.

(** [current_non_mod]: the keys of [range(VK_MIN, VK_MAX + 1)] that are
    down, the five modifier keys left out. *)
Definition sample_non_mod (keys : Z -> Z) : list Z :=
  filter (fun vk => negb (is_modifier_vk vk) && key_down keys vk)
         (zseq VK_MIN (Z.to_nat (VK_MAX + 1 - VK_MIN))).

(** The dict [state], the list [captures] and the set [prev_non_mod]. *)
Record capture : Type := mkCapture {
  captures : list str;
  last_non_mod_vk : option Z;
  last_mods : Z;
  done : bool;
  pressed_non_mod : bool;
  prev_non_mod : list Z
}.

(** [commit_capture], on the list it appends to. *)
Definition commit_capture (vk mods : Z) (captures : list str) : list str :=
  let hk := hotkey_to_string mods vk in
  if is_empty captures || negb (str_eqb (last captures []) hk)
  then captures ++ [hk]
  else captures.

(** Truth value of [state.get("last_non_mod_vk")]. *)
Definition truthy (v : option Z) : bool :=
  match v with
  | Some n => negb (n =? 0)
  | None => false
  end.

(** What happens to the dialog: a timer call of [poll], with the clock
    reading [time.time() - start] (in any unit, as an integer) and the key
    states it samples, or one of the two buttons (Return and Escape are
    bound to them). *)
Inductive ui_event : Type :=
| Tick (elapsed : Z) (keys : Z -> Z)
| Save
| Cancel.

Section Capture.

Variable timeout : Z.

(** [next(iter(s))] on a set, given as the list of its elements: which
    element comes first is up to the interpreter. *)
Variable first_of : list Z -> Z.

Definition poll (elapsed : Z) (keys : Z -> Z) (c : capture) : capture :=
  if done c then c
  else if elapsed >? timeout then
    mkCapture (captures c) (last_non_mod_vk c) (last_mods c) true
              (pressed_non_mod c) (prev_non_mod c)
  else
    let mods := sample_mods keys in
    let current_non_mod := sample_non_mod keys in
    if negb (is_empty current_non_mod) && is_empty (prev_non_mod c) then
      mkCapture (captures c) (Some (first_of current_non_mod)) mods false true
                current_non_mod
    else if is_empty current_non_mod && negb (is_empty (prev_non_mod c)) then
      mkCapture
        (if pressed_non_mod c && truthy (last_non_mod_vk c)
         then match last_non_mod_vk c with
              | Some vk => commit_capture vk (last_mods c) (captures c)
              | None => captures c
              end
         else captures c)
        None (last_mods c) false false current_non_mod
    else
      mkCapture (captures c) (last_non_mod_vk c) (last_mods c) false
                (pressed_non_mod c) current_non_mod.

(** [close_and_return] *)
Definition close_and_return (c : capture) : capture :=
  mkCapture (captures c) (last_non_mod_vk c) (last_mods c) true
            (pressed_non_mod c) (prev_non_mod c).

Definition dialog_step (c : capture) (e : ui_event) : capture :=
  match e with
  | Tick elapsed keys => poll elapsed keys c
  | Save | Cancel => if done c then c else close_and_return c
  end.

Definition dialog_start : capture := mkCapture [] None 0 false false [].

Definition run_dialog (evs : list ui_event) : capture :=
  fold_left dialog_step evs dialog_start.

(** The value of [capture_hotkey_dialog] on the events the dialog sees:
    the outer [None] is a dialog that is still open ([wait_window] has not
    returned), the inner one is the value [None] of Python. *)
Definition capture_hotkey_dialog (evs : list ui_event) : option (option (list str)) :=
  let c := run_dialog evs in
  if done c
  then Some (if is_empty (captures c) then None else Some (captures c))
  else None.

(** The event ends the dialog. *)
Definition closes (e : ui_event) : bool :=
  match e with
  | Tick elapsed _ => elapsed >? timeout
  | Save | Cancel => true
  end.

End Capture.

(** Key states with exactly the listed keys down. *)
Definition keys_down (l : list Z) : Z -> Z :=
  fun vk => if mem vk l then 0x8001 else 0.

(** An iteration order to run the dialog on: the smallest key first. *)
Definition first_listed (l : list Z) : Z := hd 0 l.

(* ===================================================================== *)
(** ** The event dispatcher *)

Inductive action : Type := Create | Toggle | Delete | SuspendEnh.

(** The globals and the effects of the dispatcher that matter here: the
    flag [RECORDING_PAUSE_HOTKEYS] (a [threading.Event], clear when
    created) and the actions [handle_hotkey] has started. *)
Record App : Type := mkApp {
  RECORDING_PAUSE_HOTKEYS : bool;
  dispatched : list action
}.

Definition action_id (name : string) : Z :=
  match dict_get str_eqb ACTION_IDS (lit name) with
  | Some i => i
  | None => 0
  end.

(** [App.handle_hotkey]; [askyesno] is what the user answers to the
    confirmation [messagebox.askyesno] asks for before a delete. *)
Definition handle_hotkey (askyesno : bool) (id_ : Z) (a : App) : App :=
  let start x := mkApp (RECORDING_PAUSE_HOTKEYS a) (dispatched a ++ [x]) in
  if id_ =? action_id "create" then start Create
  else if id_ =? action_id "toggle" then start Toggle
  else if id_ =? action_id "delete" then
    if askyesno then start Delete else a
  else if id_ =? action_id "suspend_enh" then start SuspendEnh
  else a.

(** [App.check_queue] on the items it finds in the event queue, each with
    the answer the user gives should the item bring up the confirmation. *)
Definition check_queue (items : list (event * bool)) (a : App) : App :=
  fold_left (fun a item =>
               match item with
               | (Fired id_, askyesno) =>
                   if RECORDING_PAUSE_HOTKEYS a then a else handle_hotkey askyesno id_ a
               | (Fault _, _) => a
               end) items a.

Definition app_start : App := mkApp false [].

(** The controller thread while a capture dialog is open: the dialog runs
    a nested event loop, in which the timer of [check_queue] keeps firing. *)
Inductive gui_event : Type :=
| Dialog (e : ui_event)
| CheckQueue (items : list (event * bool)).

Record gui : Type := mkGui {
  gui_app : App;
  gui_dialog : capture
}.

Definition gui_step (timeout : Z) (first_of : list Z -> Z) (g : gui) (e : gui_event) : gui :=
  match e with
  | Dialog d => mkGui (gui_app g) (dialog_step timeout first_of (gui_dialog g) d)
  | CheckQueue items => mkGui (check_queue items (gui_app g)) (gui_dialog g)
  end.



(** In the events so far a key went down: they hold a sample, taken in
    time by the open dialog when it had seen no key down just before, in
    which key [vk] was one of the keys down and the modifier mask was
    [mods]. *)
Definition pressed_in (timeout : Z) (first_of : list Z -> Z)
  (evs : list ui_event) (vk mods : Z) : Prop :=
  exists evs1 tP keysP evs2,
    evs = evs1 ++ Tick tP keysP :: evs2
    /\ done (run_dialog timeout first_of evs1) = false
    /\ prev_non_mod (run_dialog timeout first_of evs1) = []
    /\ In vk (sample_non_mod keysP) /\ tP <= timeout
    /\ mods = sample_mods keysP.

(** ... and, later, a sample taken in time by the open dialog in which no
    key was down. *)
Definition released_in (timeout : Z) (first_of : list Z -> Z)
  (evs : list ui_event) (vk mods : Z) : Prop :=
  exists evs0 tR keysR evs3,
    evs = evs0 ++ Tick tR keysR :: evs3
    /\ pressed_in timeout first_of evs0 vk mods
    /\ done (run_dialog timeout first_of evs0) = false
    /\ sample_non_mod keysR = [] /\ tR <= timeout.

(** Every committed text comes from such a pair of samples. *)
Definition commits_explained (timeout : Z) (first_of : list Z -> Z)
  (evs : list ui_event) : Prop :=
  forall hk, In hk (captures (run_dialog timeout first_of evs)) ->
             exists vk mods,
               released_in timeout first_of evs vk mods /\ hk = hotkey_to_string mods vk.

(** The key and mask the dialog holds while a key is down are those of
    the sample in which the key went down. *)
Definition press_recorded (timeout : Z) (first_of : list Z -> Z)
  (evs : list ui_event) : Prop :=
  let c := run_dialog timeout first_of evs in
  pressed_non_mod c = true ->
  forall vk, last_non_mod_vk c = Some vk ->
             pressed_in timeout first_of evs vk (last_mods c).

(* ===================================================================== *)
(** ** Further code, and notions to state its properties *)

(** The part is one of the modifier names. *)
Definition names_modifier (p : str) : bool :=
  match modifier_of p with Some _ => true | None => false end.

(** Some part is, in lower case, one of [names]. *)
Definition has_modifier (names parts : list str) : bool :=
  existsb (fun p => in_tuple (lower p) names) parts.

(** [mods & m], as a truth value. *)
Definition has_bit (mods m : Z) : bool := negb (Z.land mods m =? 0).

(** What [json.load] gives for the hotkeys file, when the file holds a
    JSON object (the program writes nothing else): the object in its
    order, a value that is not a text being [POther]. *)
Inductive hotkeys_file : Type :=
| FileMissing                (* os.path.exists(path) is false *)
| FileUnreadable             (* open or json.load raises *)
| FileObject (h : hotmap).

(** [k in h] on a dict. *)
Definition has_key (k : str) (h : hotmap) : bool :=
  existsb (fun e => str_eqb k (fst e)) h.

(** [load_hotkeys]: the object of the file with the missing defaults put
    behind, or the defaults. *)
Definition load_hotkeys (f : hotkeys_file) : hotmap :=
  match f with
  | FileObject h =>
      fold_left (fun h e => if has_key (fst e) h then h else h ++ [(fst e, PStr (snd e))])
                DEFAULT_HOTKEYS h
  | FileMissing | FileUnreadable => as_hotmap DEFAULT_HOTKEYS
  end.

(** What a round of the loop puts on the event queue when the thread
    stays in the loop. *)
Definition events_of (gm : getmessage) : list event :=
  match gm with
  | GM_message message wParam => if message =? WM_HOTKEY then [Fired wParam] else []
  | GM_error => [Fault GetMessageFailed]
  | GM_quit | GM_raises _ => []
  end.

(** The response queue a command carries. *)
Definition slot_of (c : command) : list nat :=
  match c with
  | Register _ (Some q) | Stop (Some q) => [q]
  | _ => []
  end.

(** The commands up to the first stop, the stop included. *)
Fixpoint upto_stop (cmds : list command) : list command :=
  match cmds with
  | [] => []
  | Stop q :: _ => [Stop q]
  | c :: rest => c :: upto_stop rest
  end.

(** No two neighbours of the list are the same text. *)
Fixpoint adjacent_differ (l : list str) : bool :=
  match l with
  | a :: (b :: _) as rest => negb (str_eqb a b) && adjacent_differ rest
  | _ => true
  end.

(** The action an id stands for in [ACTION_IDS]; the delete action needs
    the user's consent. *)
Definition action_for (askyesno : bool) (id_ : Z) : list action :=
  if id_ =? 1 then [Create]
  else if id_ =? 2 then [Toggle]
  else if id_ =? 3 then (if askyesno then [Delete] else [])
  else if id_ =? 4 then [SuspendEnh]
  else [].

(** The actions the items of an event queue stand for. *)
Definition actions_of (items : list (event * bool)) : list action :=
  flat_map (fun item => match item with
                        | (Fired id_, askyesno) => action_for askyesno id_
                        | (Fault _, _) => []
                        end)
           items.

(** The text of a binding, when it parses, gives the same modifiers and a
    key with the same text. *)
Definition reformat_agrees (mods vk : Z) : bool :=
  match parse_hotkey_string (hotkey_to_string mods vk) with
  | Ok (m, v) => (m =? mods) && str_eqb (hotkey_to_string m v) (hotkey_to_string mods vk)
  | Raise _ => true
  end.

(** A timer call, in time, that finds some non-modifier key down. *)
Definition holds_key (timeout : Z) (e : ui_event) : bool :=
  match e with
  | Tick elapsed keys => (elapsed <=? timeout) && negb (is_empty (sample_non_mod keys))
  | Save | Cancel => false
  end.

(* ===================================================================== *)
(** ** Facts about the string functions *)

Lemma str_eqb_eq (a b : str) : str_eqb a b = true <-> a = b.
Proof.
  revert b; induction a as [|x a IH]; intros [|y b]; simpl; split; intro H;
    try reflexivity; try discriminate.
  - apply andb_true_iff in H as [H1 H2]. apply Z.eqb_eq in H1.
    apply IH in H2. now subst.
  - injection H as -> ->. rewrite Z.eqb_refl. now apply IH.
Qed.

Lemma parses_to_spec r mods vk : parses_to r mods vk = true <-> r = Ok (mods, vk).
Proof.
  destruct r as [[m v]|e]; simpl; split; intro H; try discriminate.
  - apply andb_true_iff in H as [H1 H2].
    apply Z.eqb_eq in H1, H2. now subst.
  - injection H as -> ->. now rewrite !Z.eqb_refl.
Qed.

Lemma in_zseq (n : nat) : forall lo z, lo <= z < lo + Z.of_nat n -> In z (zseq lo n).
Proof.
  induction n as [|n IH]; intros lo z Hz.
  - lia.
  - simpl. destruct (Z.eq_dec lo z) as [->|Hne]; [now left|].
    right. apply IH. lia.
Qed.

Lemma forallb_zseq (P : Z -> bool) lo n :
  forallb P (zseq lo n) = true ->
  forall z, lo <= z < lo + Z.of_nat n -> P z = true.
Proof.
  intros H z Hz. rewrite forallb_forall in H. apply H. now apply in_zseq.
Qed.

Lemma forallb2_zseq (P : Z -> Z -> bool) lo1 n1 lo2 n2 :
  forallb (fun a => forallb (P a) (zseq lo2 n2)) (zseq lo1 n1) = true ->
  forall a b, lo1 <= a < lo1 + Z.of_nat n1 -> lo2 <= b < lo2 + Z.of_nat n2 ->
              P a b = true.
Proof.
  intros H a b Ha Hb.
  apply (forallb_zseq (P a) lo2 n2); [|exact Hb].
  exact (forallb_zseq _ lo1 n1 H a Ha).
Qed.

(* ===================================================================== *)
(** ** The codec: formatting then parsing *)

Lemma roundtrip_table :
  forallb (fun mods => forallb (roundtrip_agrees mods) (zseq 1 254)) (zseq 0 16) = true.
Proof. vm_compute. reflexivity. Qed.

Lemma roundtrip_exact (mods vk : Z) :
  0 <= mods <= 15 -> VK_MIN <= vk <= VK_MAX ->
  parses_to (parse_hotkey_string (hotkey_to_string mods vk)) mods vk = roundtrip_key vk.
Proof.
  intros Hm Hv. unfold VK_MIN, VK_MAX in Hv.
  assert (A : roundtrip_agrees mods vk = true).
  { apply (forallb2_zseq roundtrip_agrees 0 16 1 254 roundtrip_table); lia. }
  apply Bool.eqb_prop in A. now symmetry.
Qed.

(** C4, as stated, fails: the numeric keypad key 1 (code 0x61) is written
    as the text of the letter A, which is read back as code 0x41. *)
Lemma hotkey_roundtrip_fails_numpad1 :
  (0 <= 0 <= 15) /\ (VK_MIN <= 0x61 <= VK_MAX) /\ is_modifier_vk 0x61 = false /\
  hotkey_to_string 0 0x61 = lit "A" /\
  parse_hotkey_string (hotkey_to_string 0 0x61) = Ok (0, 0x41) /\
  parse_hotkey_string (hotkey_to_string 0 0x61) <> Ok (0, 0x61).
Proof.
  repeat split; try (vm_compute; congruence).
Qed.

(** C4 (amended): for every modifier mask over Ctrl/Alt/Shift/Win and every
    key code in VK_MIN..VK_MAX that is a named key, a function key
    F1..F24, or a code whose character is not white space, not the
    separator and is its own upper case, parsing the formatted text gives
    the binding back. *)
Theorem parse_format_roundtrip (mods vk : Z) :
  0 <= mods <= 15 -> VK_MIN <= vk <= VK_MAX -> roundtrip_key vk = true ->
  parse_hotkey_string (hotkey_to_string mods vk) = Ok (mods, vk).
Proof.
  intros Hm Hv Hk. apply parses_to_spec.
  rewrite roundtrip_exact by assumption. exact Hk.
Qed.

Lemma parse_format_roundtrip_witness :
  parse_hotkey_string (hotkey_to_string 3 0x4B) = Ok (3, 0x4B).
Proof.
  apply parse_format_roundtrip; [lia | unfold VK_MIN, VK_MAX; lia | reflexivity].
Defined.

(** The amendment is tight: on every other key code of the range the text
    is not read back as the binding. *)
Lemma roundtrip_fails_on_other_keys (mods vk : Z) :
  0 <= mods <= 15 -> VK_MIN <= vk <= VK_MAX -> roundtrip_key vk = false ->
  parse_hotkey_string (hotkey_to_string mods vk) <> Ok (mods, vk).
Proof.
  intros Hm Hv Hk E. apply parses_to_spec in E.
  rewrite roundtrip_exact in E by assumption. congruence.
Qed.

(* ===================================================================== *)
(** ** The codec: texts with several keys *)

Lemma split_not_nil sep s : split sep s <> [].
Proof.
  destruct s as [|c s]; cbn [split]; [discriminate|].
  destruct (c =? sep); [discriminate|].
  destruct (split sep s); discriminate.
Qed.

Lemma split_app_sep sep a : forall b,
  split sep (a ++ sep :: b) = split sep a ++ split sep b.
Proof.
  induction a as [|c a IH]; intro b; cbn [app split].
  - now rewrite Z.eqb_refl.
  - destruct (c =? sep); rewrite IH; [reflexivity|].
    destruct (split sep a) as [|p ps] eqn:E; [|reflexivity].
    now destruct (split_not_nil sep a).
Qed.

Lemma split_no_sep sep f : mem sep f = false -> split sep f = [f].
Proof.
  induction f as [|c f IH]; intro H; cbn [split]; [reflexivity|].
  unfold mem in H. cbn [existsb] in H. apply orb_false_iff in H as [H1 H2].
  rewrite Z.eqb_sym, H1, (IH H2). reflexivity.
Qed.

Lemma join_cons (sep f g : str) (fields : list str) :
  join sep (f :: g :: fields) = f ++ sep ++ join sep (g :: fields).
Proof. reflexivity. Qed.

Lemma split_join (fields : list str) :
  fields <> [] -> Forall (fun f => no_plus f = true) fields ->
  split 0x2B (join [0x2B] fields) = fields.
Proof.
  induction fields as [|f fields IH]; intros N F; [congruence|].
  inversion F as [|? ? Hf Hfs]; subst.
  apply negb_true_iff in Hf.
  destruct fields as [|g fields].
  - now apply split_no_sep.
  - rewrite join_cons. cbn [app].
    rewrite split_app_sep, (split_no_sep _ _ Hf), IH; [reflexivity | discriminate | exact Hfs].
Qed.

Lemma join_cons_head (sep : str) (c : Z) (p : str) (ps : list str) :
  join sep ((c :: p) :: ps) = c :: join sep (p :: ps).
Proof. destruct ps; reflexivity. Qed.

Lemma join_split sep s : join [sep] (split sep s) = s.
Proof.
  induction s as [|c s IH]; cbn [split]; [reflexivity|].
  destruct (split sep s) as [|p ps] eqn:Es; [now destruct (split_not_nil sep s)|].
  destruct (c =? sep) eqn:E.
  - apply Z.eqb_eq in E. subst c. rewrite join_cons, IH. reflexivity.
  - rewrite join_cons_head, IH. reflexivity.
Qed.

Lemma forallb_rev {A : Type} (f : A -> bool) (l : list A) :
  forallb f (rev l) = forallb f l.
Proof.
  induction l as [|x l IH]; [reflexivity|].
  cbn [rev forallb]. rewrite forallb_app, IH. cbn [forallb].
  rewrite andb_true_r. apply andb_comm.
Qed.

Lemma lstrip_blank s : forallb isspace s = true -> lstrip s = [].
Proof.
  induction s as [|c s IH]; intro H; [reflexivity|].
  cbn [forallb] in H. apply andb_true_iff in H as [H1 H2].
  cbn [lstrip]. rewrite H1. now apply IH.
Qed.

Lemma lstrip_app s : forall t,
  lstrip (s ++ t) = if forallb isspace s then lstrip t else lstrip s ++ t.
Proof.
  induction s as [|c s IH]; intro t; [reflexivity|].
  cbn [app lstrip forallb]. destruct (isspace c); [apply IH | reflexivity].
Qed.

(** [rstrip] by recursion from the left. *)
Lemma rstrip_cons c s :
  rstrip (c :: s) = if forallb isspace (c :: s) then [] else c :: rstrip s.
Proof.
  unfold rstrip. cbn [rev]. rewrite lstrip_app, forallb_rev. cbn [forallb].
  destruct (forallb isspace s) eqn:B.
  - rewrite andb_true_r. cbn [lstrip]. destruct (isspace c) eqn:C; [reflexivity|].
    cbn [rev app]. rewrite lstrip_blank by (now rewrite forallb_rev). reflexivity.
  - rewrite andb_false_r. rewrite rev_app_distr. reflexivity.
Qed.

Lemma rstrip_nil s : is_empty (rstrip s) = forallb isspace s.
Proof.
  induction s as [|c s IH]; [reflexivity|].
  rewrite rstrip_cons. destruct (forallb isspace (c :: s)); reflexivity.
Qed.

Lemma rstrip_cons_rstrip c s :
  rstrip (c :: s) = if isspace c && is_empty (rstrip s) then [] else c :: rstrip s.
Proof. rewrite rstrip_cons, rstrip_nil. reflexivity. Qed.

Lemma strip_comm s : rstrip (lstrip s) = lstrip (rstrip s).
Proof.
  induction s as [|c s IH]; [reflexivity|].
  rewrite rstrip_cons. cbn [lstrip forallb].
  destruct (isspace c) eqn:C; cbn [andb].
  - rewrite IH. destruct (forallb isspace s) eqn:B.
    + rewrite <- IH. rewrite lstrip_blank by exact B. reflexivity.
    + cbn [lstrip]. now rewrite C.
  - rewrite rstrip_cons. cbn [forallb]. rewrite C. cbn [andb lstrip]. now rewrite C.
Qed.

Lemma strip_via_rstrip s : strip s = lstrip (rstrip s).
Proof. apply strip_comm. Qed.

Lemma blank_no_plus s : forallb isspace s = true -> mem 0x2B s = false.
Proof.
  induction s as [|c s IH]; intro H; [reflexivity|].
  cbn [forallb] in H. apply andb_true_iff in H as [H1 H2].
  unfold mem. cbn [existsb]. apply orb_false_iff. split; [|now apply IH].
  apply Z.eqb_neq. intros <-. discriminate H1.
Qed.

Lemma split_lstrip s : map strip (split 0x2B (lstrip s)) = map strip (split 0x2B s).
Proof.
  induction s as [|c s IH]; [reflexivity|].
  cbn [lstrip]. destruct (isspace c) eqn:C; [|reflexivity].
  rewrite IH. cbn [split].
  destruct (c =? 0x2B) eqn:E.
  { apply Z.eqb_eq in E. subst c. discriminate C. }
  destruct (split 0x2B s) as [|p ps] eqn:Es; [now destruct (split_not_nil 0x2B s)|].
  cbn [map]. f_equal. unfold strip. cbn [lstrip]. now rewrite C.
Qed.

Lemma split_rstrip s : map rstrip (split 0x2B (rstrip s)) = map rstrip (split 0x2B s).
Proof.
  induction s as [|c s IH]; [reflexivity|].
  rewrite rstrip_cons. destruct (forallb isspace (c :: s)) eqn:B.
  - rewrite (split_no_sep _ _ (blank_no_plus _ B)). cbn [split map].
    rewrite rstrip_cons, B. reflexivity.
  - cbn [split]. destruct (c =? 0x2B); cbn [map]; [now rewrite IH|].
    destruct (split 0x2B (rstrip s)) as [|p' ps'] eqn:E';
      [now destruct (split_not_nil 0x2B (rstrip s))|].
    destruct (split 0x2B s) as [|p ps] eqn:E; [now destruct (split_not_nil 0x2B s)|].
    cbn [map] in *. injection IH as Hp Hps.
    rewrite !rstrip_cons_rstrip, Hp, Hps. reflexivity.
Qed.

Lemma map_strip_via_rstrip (l : list str) : map strip l = map lstrip (map rstrip l).
Proof.
  rewrite map_map. apply map_ext. intro s. apply strip_via_rstrip.
Qed.

(** Stripping the whole text first does not change its parts. *)
Lemma parts_of_strip s : parts_of (strip s) = parts_of s.
Proof.
  unfold parts_of. f_equal. unfold strip at 2.
  rewrite map_strip_via_rstrip, split_rstrip, <- map_strip_via_rstrip.
  apply split_lstrip.
Qed.

Lemma parse_step_fold parts : forall mods key,
  fold_left parse_step parts (mods, key) = (mods_of parts mods, last_key parts key).
Proof.
  unfold mods_of, last_key.
  induction parts as [|p parts IH]; intros mods key; [reflexivity|].
  cbn [fold_left]. unfold parse_step at 2.
  destruct (modifier_of p); apply IH.
Qed.

(** [parse_hotkey_string] on a text that has parts. *)
Lemma parse_by_parts s :
  parts_of s <> [] ->
  parse_hotkey_string s =
  match last_key (parts_of s) None with
  | None => Raise NoKeySpecified
  | Some key =>
      match key_to_vk key with
      | Ok vk => Ok (mods_of (parts_of s) 0, vk)
      | Raise e => Raise e
      end
  end.
Proof.
  intro N. unfold parse_hotkey_string. cbv zeta.
  destruct (strip s) as [|c s'] eqn:E.
  - exfalso. apply N. rewrite <- parts_of_strip, E. reflexivity.
  - cbn [nonempty negb]. rewrite <- E, parts_of_strip, parse_step_fold. reflexivity.
Qed.

Lemma last_key_settled parts : forall k k',
  existsb (fun p => match modifier_of p with Some _ => false | None => true end) parts = true ->
  last_key parts k = last_key parts k'.
Proof.
  unfold last_key.
  induction parts as [|p parts IH]; intros k k' H; [discriminate H|].
  cbn [existsb] in H. cbn [fold_left].
  destruct (modifier_of p); cbn [orb] in H; [now apply IH | reflexivity].
Qed.

Lemma parts_of_fields (fields : list str) :
  Forall (fun f => no_plus f = true) fields ->
  parts_of (join (lit "+") fields) = filter nonempty (map strip fields).
Proof.
  intro F. unfold parts_of. change (lit "+") with [0x2B].
  destruct fields as [|f fields]; [reflexivity|].
  rewrite split_join; [reflexivity | discriminate | exact F].
Qed.

Lemma key_field_part (f : str) :
  key_field f = true ->
  no_plus f = true /\ filter nonempty [strip f] = [strip f] /\ modifier_of (strip f) = None.
Proof.
  unfold key_field. intro H.
  apply andb_true_iff in H as [H H3]. apply andb_true_iff in H as [H1 H2].
  repeat split; [exact H1 | cbn [filter]; now rewrite H2 |].
  destruct (modifier_of (strip f)); [discriminate H3 | reflexivity].
Qed.

Lemma key_field_among (b : list str) :
  existsb key_field b = true ->
  existsb (fun p => match modifier_of p with Some _ => false | None => true end)
          (filter nonempty (map strip b)) = true.
Proof.
  induction b as [|f b IH]; intro H; [discriminate H|].
  cbn [existsb] in H. cbn [map filter].
  destruct (key_field f) eqn:K.
  - apply key_field_part in K as (_ & K2 & K3). cbn [filter] in K2.
    destruct (nonempty (strip f)); [|discriminate K2].
    cbn [existsb]. now rewrite K3.
  - cbn [orb] in H. destruct (nonempty (strip f)); [|now apply IH].
    cbn [existsb]. rewrite (IH H). apply orb_true_r.
Qed.

(** A non-modifier field that another one follows is ignored: the text
    parses, to a binding or to an error, exactly as the text without that
    field does. *)
Lemma earlier_key_is_ignored (a b : list str) (k : str) :
  Forall (fun f => no_plus f = true) (a ++ b) ->
  key_field k = true ->
  existsb key_field b = true ->
  parse_hotkey_string (join (lit "+") (a ++ k :: b))
  = parse_hotkey_string (join (lit "+") (a ++ b)).
Proof.
  intros F K B.
  destruct (key_field_part k K) as (K1 & K2 & K3).
  pose proof (key_field_among b B) as KB.
  assert (F' : Forall (fun f => no_plus f = true) (a ++ k :: b)).
  { apply Forall_app in F as [Fa Fb]. apply Forall_app. split; [exact Fa|].
    constructor; assumption. }
  assert (Nb : filter nonempty (map strip b) <> []).
  { intro E. rewrite E in KB. discriminate KB. }
  rewrite !parse_by_parts; rewrite !parts_of_fields by assumption;
    rewrite ?map_app, ?filter_app; cbn [map].
  2,3: intro E; repeat (apply app_eq_nil in E as [_ E]);
       try (change (strip k :: map strip b) with ([strip k] ++ map strip b) in E;
            rewrite filter_app in E; apply app_eq_nil in E as [_ E]);
       contradiction.
  change (strip k :: map strip b) with ([strip k] ++ map strip b).
  rewrite filter_app, K2.
  set (ta := filter nonempty (map strip a)).
  set (tb := filter nonempty (map strip b)) in *.
  assert (Ek : last_key (ta ++ [strip k] ++ tb) None = last_key (ta ++ tb) None).
  { unfold last_key. rewrite !fold_left_app. apply (last_key_settled tb _ _ KB). }
  assert (Em : mods_of (ta ++ [strip k] ++ tb) 0 = mods_of (ta ++ tb) 0).
  { unfold mods_of. rewrite !fold_left_app. cbn [fold_left]. now rewrite K3. }
  now rewrite Ek, Em.
Qed.

(** Only the modifier names count for the mask. *)
Lemma mods_of_names parts : forall m,
  mods_of parts m = mods_of (filter names_modifier parts) m.
Proof.
  unfold mods_of, names_modifier.
  induction parts as [|p parts IH]; intro m; [reflexivity|].
  cbn [fold_left filter].
  destruct (modifier_of p) eqn:E; cbn [fold_left]; rewrite ?E; apply IH.
Qed.

Lemma names_of_nonempty (l : list str) :
  filter names_modifier (filter nonempty l) = filter names_modifier l.
Proof.
  induction l as [|p l IH]; [reflexivity|].
  cbn [filter]. destruct p as [|c p]; cbn [nonempty filter]; [exact IH|].
  now rewrite IH.
Qed.

(** Modifier names leave the key as it is. *)
Lemma last_key_names parts : forall k,
  forallb names_modifier parts = true -> last_key parts k = k.
Proof.
  unfold last_key, names_modifier.
  induction parts as [|p parts IH]; intros k H; [reflexivity|].
  cbn [forallb] in H. cbn [fold_left].
  destruct (modifier_of p); [now apply IH | discriminate H].
Qed.

(** Fields none of which is taken as the key leave modifier names only. *)
Lemma no_key_field_names (b : list str) :
  Forall (fun f => no_plus f = true) b ->
  existsb key_field b = false ->
  forallb names_modifier (filter nonempty (map strip b)) = true.
Proof.
  induction b as [|f b IH]; intros F H; [reflexivity|].
  inversion F as [|? ? Hf Hb]; subst.
  cbn [existsb] in H. apply orb_false_iff in H as [H1 H2].
  cbn [map filter]. unfold key_field in H1. rewrite Hf in H1. cbn [andb] in H1.
  destruct (nonempty (strip f)); [|now apply IH].
  cbn [andb] in H1. cbn [forallb]. unfold names_modifier at 1.
  destruct (modifier_of (strip f)); [|discriminate H1].
  now apply IH.
Qed.

Lemma key_field_no_name (f : str) :
  key_field f = true -> names_modifier (strip f) = false.
Proof.
  intro K. destruct (key_field_part f K) as (_ & _ & M).
  unfold names_modifier. now rewrite M.
Qed.

Lemma names_without_key_fields (a : list str) :
  filter names_modifier (map strip (filter (fun f => negb (key_field f)) a))
  = filter names_modifier (map strip a).
Proof.
  induction a as [|f a IH]; [reflexivity|].
  cbn [filter map]. destruct (key_field f) eqn:K; cbn [negb map filter].
  - now rewrite (key_field_no_name f K).
  - now rewrite IH.
Qed.

(** [parse_hotkey_string] on a text given by its fields, the last field
    taken as a key being [k]. *)
Lemma parse_last_key_field (a b : list str) (k : str) :
  Forall (fun f => no_plus f = true) (a ++ b) ->
  key_field k = true ->
  existsb key_field b = false ->
  parse_hotkey_string (join (lit "+") (a ++ k :: b))
  = match key_to_vk (strip k) with
    | Ok vk => Ok (mods_of (filter names_modifier (map strip (a ++ b))) 0, vk)
    | Raise e => Raise e
    end.
Proof.
  intros F K B.
  destruct (key_field_part k K) as (K1 & K2 & K3).
  assert (F' : Forall (fun f => no_plus f = true) (a ++ k :: b)).
  { apply Forall_app in F as [Fa Fb]. apply Forall_app. split; [exact Fa|].
    constructor; assumption. }
  apply Forall_app in F as [Fa Fb].
  pose proof (no_key_field_names b Fb B) as Nb.
  assert (P : parts_of (join (lit "+") (a ++ k :: b))
              = filter nonempty (map strip a) ++ [strip k] ++ filter nonempty (map strip b)).
  { rewrite parts_of_fields by exact F'. rewrite map_app, filter_app. cbn [map].
    change (strip k :: map strip b) with ([strip k] ++ map strip b).
    now rewrite filter_app, K2. }
  rewrite parse_by_parts; rewrite P.
  2:{ intro E. apply app_eq_nil in E as [_ E]. discriminate E. }
  assert (L : last_key (filter nonempty (map strip a) ++ [strip k]
                        ++ filter nonempty (map strip b)) None = Some (strip k)).
  { unfold last_key. rewrite !fold_left_app. cbn [fold_left]. rewrite K3.
    exact (last_key_names _ (Some (strip k)) Nb). }
  rewrite L.
  rewrite mods_of_names, !filter_app, !names_of_nonempty.
  cbn [filter]. rewrite (key_field_no_name k K). cbn [app].
  now rewrite map_app, filter_app.
Qed.

(** C10, as stated, fails: a text with several non-modifier tokens is not
    refused for that, but it is refused when the last of them names no
    key, whatever the earlier ones are. *)
Lemma parse_fails_on_unknown_last_key :
  parse_hotkey_string (lit "Ctrl+A+Nope") = Raise (UnknownKeyName (lit "Nope"))
  /\ parse_hotkey_string (lit "Ctrl+A") = Ok (MOD_CONTROL, 0x41)
  /\ parse_hotkey_string (lit "Ctrl+A+F25") = Raise InvalidFunctionKey.
Proof. repeat split. Qed.

(** C10 (amended): in a text given by its fields between the separators,
    the last field that is not blank and not a modifier name decides: the
    text parses to the key that this field names, with the mask of the
    modifier names among all the fields, and fails with the error of this
    field when it names no key.  The fields taken as keys before it are
    ignored, whether they name a key or not: the text parses, to a binding
    or to an error, as the text without them does. *)
Theorem last_key_field_decides (a b : list str) (k : str) :
  Forall (fun f => no_plus f = true) (a ++ b) ->
  key_field k = true ->
  existsb key_field b = false ->
  parse_hotkey_string (join (lit "+") (a ++ k :: b))
  = match key_to_vk (strip k) with
    | Ok vk => Ok (mods_of (filter names_modifier (map strip (a ++ b))) 0, vk)
    | Raise e => Raise e
    end
  /\ parse_hotkey_string (join (lit "+") (a ++ k :: b))
     = parse_hotkey_string (join (lit "+") (filter (fun f => negb (key_field f)) a ++ k :: b)).
Proof.
  intros F K B. split; [now apply parse_last_key_field|].
  rewrite !parse_last_key_field; try assumption.
  - now rewrite !map_app, !filter_app, names_without_key_fields.
  - apply Forall_app in F as [Fa Fb]. apply Forall_app. split; [|exact Fb].
    rewrite Forall_forall in *. intros f Hf. apply filter_In in Hf as [Hf _].
    now apply Fa.
Qed.

Lemma last_key_field_decides_witness :
  (parse_hotkey_string (lit "Ctrl+A+B+shift") = Ok (6, 0x42)
   /\ parse_hotkey_string (lit "Ctrl+A+B+shift") = parse_hotkey_string (lit "Ctrl+B+shift"))
  /\ (parse_hotkey_string (lit "Ctrl+A+B") = Ok (MOD_CONTROL, 0x42)
      /\ parse_hotkey_string (lit "Ctrl+A+B") = parse_hotkey_string (lit "Ctrl+B"))
  /\ (parse_hotkey_string (lit "Nope+Ctrl+B") = Ok (MOD_CONTROL, 0x42)
      /\ parse_hotkey_string (lit "Nope+Ctrl+B") = parse_hotkey_string (lit "Ctrl+B")).
Proof.
  split; [|split].
  - apply (last_key_field_decides [lit "Ctrl"; lit "A"] [lit "shift"] (lit "B"));
      [repeat constructor | reflexivity | reflexivity].
  - apply (last_key_field_decides [lit "Ctrl"; lit "A"] [] (lit "B"));
      [repeat constructor | reflexivity | reflexivity].
  - apply (last_key_field_decides [lit "Nope"; lit "Ctrl"] [] (lit "B"));
      [repeat constructor | reflexivity | reflexivity].
Defined.

(* ===================================================================== *)
(** ** The hotkey thread: registrations *)

Lemma unregister_all_filter (ids : list Z) : forall t,
  unregister_all ids t = filter (fun e => negb (mem (fst e) ids)) t.
Proof.
  unfold unregister_all.
  induction ids as [|a ids IH]; intro t; simpl.
  - induction t as [|e t IHt]; simpl; [reflexivity | now rewrite <- IHt].
  - rewrite IH. unfold UnregisterHotKey.
    induction t as [|e t IHt]; simpl; [reflexivity|].
    destruct (fst e =? a); simpl; [exact IHt|].
    destruct (mem (fst e) ids); simpl; [exact IHt | now rewrite IHt].
Qed.

Lemma mem_In (c : Z) (l : list Z) : mem c l = true <-> In c l.
Proof.
  unfold mem. rewrite existsb_exists. split.
  - intros (x & Hx & E). apply Z.eqb_eq in E. now subst.
  - intro H. exists c. split; [exact H | apply Z.eqb_refl].
Qed.

Lemma unregister_all_listed (ids : list Z) (t : table) :
  (forall e, In e t -> In (fst e) ids) -> unregister_all ids t = [].
Proof.
  intro H. rewrite unregister_all_filter.
  induction t as [|e t IHt]; simpl; [reflexivity|].
  assert (M : mem (fst e) ids = true) by (apply mem_In, H; now left).
  rewrite M. simpl. apply IHt. intros e' He'. apply H. now right.
Qed.

Lemma unregister_all_consistent (th : thread) :
  consistent th -> unregister_all (registered_ids th) (os_hotkeys th) = [].
Proof. intro H. now apply unregister_all_listed. Qed.

Section ThreadFacts.

Variable accepts : table -> Z -> Z -> Z -> bool.

Arguments dict_get : simpl never.
Arguments parse_value : simpl never.

Lemma register_loop_listed (hm : hotmap) : forall ids t ids' t' failed,
  register_loop accepts hm ids t = (ids', t', failed) ->
  (forall e, In e t -> In (fst e) ids) ->
  forall e, In e t' -> In (fst e) ids'.
Proof.
  induction hm as [|[action hk] rest IH]; intros ids t ids' t' failed E H; simpl in E.
  - injection E as <- <- <-. exact H.
  - destruct (dict_get str_eqb ACTION_IDS action) as [aid|].
    2:{ injection E as <- <- <-. exact H. }
    destruct (parse_value hk) as [[mods vk]|e0].
    2:{ injection E as <- <- <-. exact H. }
    unfold RegisterHotKey in E. destruct (accepts t aid mods vk).
    2:{ injection E as <- <- <-. exact H. }
    apply (IH _ _ _ _ _ E). intros e He.
    apply in_app_or in He as [He|[<-|[]]]; apply in_or_app.
    + left. now apply H.
    + right. now left.
Qed.

(** A loop that ends without [failed] has registered the whole map. *)
Lemma register_loop_ok (hm : hotmap) : forall ids t ids' t',
  register_loop accepts hm ids t = (ids', t', None) ->
  exists hs, Forall2 binding_of hm hs /\ t' = t ++ hs /\ ids' = ids ++ map fst hs.
Proof.
  induction hm as [|[action hk] rest IH]; intros ids t ids' t' E; simpl in E.
  - injection E as <- <-. exists []. now rewrite !app_nil_r.
  - destruct (dict_get str_eqb ACTION_IDS action) as [aid|] eqn:Ea; [|discriminate].
    destruct (parse_value hk) as [[mods vk]|e0] eqn:Ep; [|discriminate].
    unfold RegisterHotKey in E. destruct (accepts t aid mods vk); [|discriminate].
    destruct (IH _ _ _ _ E) as (hs & F & -> & ->).
    exists ((aid, (mods, vk)) :: hs). repeat split.
    + constructor; [|exact F]. split; assumption.
    + now rewrite <- app_assoc.
    + simpl. now rewrite <- app_assoc.
Qed.

(** The loop stops at the first entry that cannot be registered. *)
Lemma register_loop_first_failure (pre : hotmap) : forall ids t t' entry why post,
  registers accepts t pre t' -> entry_fails accepts t' entry why ->
  exists ids',
    register_loop accepts (pre ++ entry :: post) ids t = (ids', t', Some (fst entry, why)).
Proof.
  induction pre as [|[action hk] rest IH]; intros ids t t' entry why post R F.
  - inversion R; subst. simpl.
    inversion F as [a h Ha | a h aid e Ha Hp | a h aid mods vk Ha Hp Hacc]; subst; simpl.
    + rewrite Ha. now exists ids.
    + rewrite Ha, Hp. now exists ids.
    + rewrite Ha, Hp. unfold RegisterHotKey. rewrite Hacc. now exists ids.
  - inversion R as [|t0 a h aid mods vk rest0 t1 Ha Hp Hacc Hrest]; subst. simpl.
    rewrite Ha, Hp. unfold RegisterHotKey. rewrite Hacc.
    now apply IH.
Qed.

(** Every map either registers entry by entry or has a first entry that
    cannot be registered. *)
Lemma register_outcome (hm : hotmap) : forall t,
  (exists t', registers accepts t hm t')
  \/ (exists pre entry post why t',
        hm = pre ++ entry :: post
        /\ registers accepts t pre t' /\ entry_fails accepts t' entry why).
Proof.
  induction hm as [|[action hk] rest IH]; intro t.
  - left. exists t. constructor.
  - destruct (dict_get str_eqb ACTION_IDS action) as [aid|] eqn:Ea.
    2:{ right. exists [], (action, hk), rest, UnknownActionId, t.
        repeat split; [constructor | now constructor]. }
    destruct (parse_value hk) as [[mods vk]|e] eqn:Ep.
    2:{ right. exists [], (action, hk), rest, (ParseFailed e), t.
        repeat split; [constructor | now apply (fails_parse accepts t _ _ aid)]. }
    destruct (accepts t aid mods vk) eqn:Eacc.
    2:{ right. exists [], (action, hk), rest, (RegisterHotKeyFailed hk), t.
        repeat split; [constructor | now apply (fails_rejected accepts t _ _ aid mods vk)]. }
    destruct (IH (t ++ [(aid, (mods, vk))]))
      as [(t' & R) | (pre & entry & post & why & t' & -> & R & F)].
    + left. exists t'. now apply (registers_cons accepts t _ _ aid mods vk).
    + right. exists ((action, hk) :: pre), entry, post, why, t'.
      repeat split; [|exact F].
      now apply (registers_cons accepts t _ _ aid mods vk).
Qed.

Lemma do_register_consistent hm q th : consistent th -> consistent (do_register accepts hm q th).
Proof.
  intro C. unfold do_register. rewrite (unregister_all_consistent _ C).
  destruct (register_loop accepts hm [] []) as [[ids t1] failed] eqn:E.
  assert (L : forall e, In e t1 -> In (fst e) ids).
  { apply (register_loop_listed _ _ _ _ _ _ E). intros e []. }
  destruct failed as [[action why]|]; unfold consistent; simpl.
  - rewrite (unregister_all_listed _ _ L). intros e [].
  - exact L.
Qed.

Lemma do_stop_consistent q th : consistent th -> consistent (do_stop q th).
Proof.
  intro C. unfold do_stop, consistent. simpl.
  rewrite (unregister_all_consistent _ C). intros e [].
Qed.

Lemma handle_command_consistent c th :
  consistent th -> consistent (handle_command accepts c th).
Proof.
  destruct c; simpl; intro C;
    [now apply do_register_consistent | now apply do_stop_consistent | exact C].
Qed.

Lemma drain_consistent cmds : forall th,
  consistent th -> consistent (drain accepts cmds th).
Proof.
  induction cmds as [|c rest IH]; intros th C; simpl; [exact C|].
  destruct (running th); [|exact C].
  apply IH. now apply handle_command_consistent.
Qed.

Lemma after_getmessage_consistent gm th : consistent th -> consistent (after_getmessage gm th).
Proof.
  intro C. destruct gm; unfold consistent; simpl; try exact C.
  rewrite (unregister_all_consistent _ C). intros e [].
Qed.

Lemma iteration_consistent th inp : consistent th -> consistent (iteration accepts th inp).
Proof.
  intro C. unfold iteration. destruct (running th); [|exact C].
  pose proof (drain_consistent (fst inp) th C) as D.
  destruct (running (drain accepts (fst inp) th)); [|exact D].
  now apply after_getmessage_consistent.
Qed.

(** Whatever the thread has been through, the system holds no hotkey of
    it that [registered_ids] does not list. *)
Lemma hotkey_thread_consistent inputs : consistent (hotkey_thread_func accepts inputs).
Proof.
  unfold hotkey_thread_func.
  assert (G : forall th, consistent th -> consistent (fold_left (iteration accepts) inputs th)).
  { induction inputs as [|inp rest IH]; intros th C; simpl; [exact C|].
    apply IH. now apply iteration_consistent. }
  apply G. intros e [].
Qed.

Lemma drain_app cmds1 : forall cmds2 th,
  drain accepts (cmds1 ++ cmds2) th =
  if running (drain accepts cmds1 th) then drain accepts cmds2 (drain accepts cmds1 th)
  else drain accepts cmds1 th.
Proof.
  induction cmds1 as [|c rest IH]; intros cmds2 th; simpl.
  - destruct cmds2; simpl; destruct (running th) eqn:R; try reflexivity.
  - destruct (running th) eqn:R.
    + apply IH.
    + now rewrite R.
Qed.

Lemma drain_stopped cmds th : running th = false -> drain accepts cmds th = th.
Proof. intro R. destruct cmds; simpl; [reflexivity | now rewrite R]. Qed.

Lemma iterations_stopped inputs : forall th,
  running th = false -> fold_left (iteration accepts) inputs th = th.
Proof.
  induction inputs as [|inp rest IH]; intros th R; simpl; [reflexivity|].
  unfold iteration at 2. rewrite R. now apply IH.
Qed.

End ThreadFacts.

(* ===================================================================== *)
(** ** The hotkey thread: the claims *)

(** C1: a Register command whose map has an entry that cannot be
    registered (unknown action, text that does not parse, or refusal by
    the system) leaves [registered_ids] empty and no hotkey of the thread
    in the system table, whatever was registered before and during the
    call, and answers Failed with the first such entry in iteration
    order; the thread keeps running. *)
Theorem register_failure_leaves_nothing_registered
  (accepts : table -> Z -> Z -> Z -> bool)
  (inputs : list (list command * getmessage))
  (pre post : hotmap) (entry : str * pyval) (why : reason) (q : nat) (t' : table) :
  registers accepts [] pre t' ->
  entry_fails accepts t' entry why ->
  let th := hotkey_thread_func accepts inputs in
  let th' := handle_command accepts (Register (pre ++ entry :: post) (Some q)) th in
  registered_ids th' = [] /\ os_hotkeys th' = []
  /\ responses th' = responses th ++ [(q, RespFailed (fst entry) why)]
  /\ running th' = running th.
Proof.
  intros R F th th'. subst th th'. cbn [handle_command]. unfold do_register.
  rewrite (unregister_all_consistent _ (hotkey_thread_consistent accepts inputs)).
  destruct (register_loop_first_failure accepts pre [] [] t' entry why post R F)
    as (ids' & E).
  rewrite E. cbn. repeat split.
  apply unregister_all_listed.
  apply (register_loop_listed accepts _ _ _ _ _ _ E). intros e [].
Qed.

Lemma register_failure_leaves_nothing_registered_witness :
  let hm := [ (lit "create", PStr (lit "Ctrl+Alt+C")); (lit "toggle", PStr (lit "Ctrl+Alt+T"));
              (lit "delete", PStr (lit "Ctrl+Alt+Nope"));
              (lit "suspend_enh", PStr (lit "Ctrl+Alt+E")) ] in
  let th := hotkey_thread_func accept_unowned
              [([Register (as_hotmap DEFAULT_HOTKEYS) (Some 0%nat)], GM_message WM_HOTKEY 1)] in
  let th' := handle_command accept_unowned (Register hm (Some 1%nat)) th in
  os_hotkeys th = [(1, (3, 67)); (2, (3, 84)); (3, (3, 68)); (4, (3, 69))]
  /\ registered_ids th' = [] /\ os_hotkeys th' = []
  /\ responses th' =
     responses th ++ [(1%nat, RespFailed (lit "delete") (ParseFailed (UnknownKeyName (lit "Nope"))))]
  /\ running th' = running th.
Proof.
  split; [reflexivity|].
  apply (register_failure_leaves_nothing_registered accept_unowned
           [([Register (as_hotmap DEFAULT_HOTKEYS) (Some 0%nat)], GM_message WM_HOTKEY 1)]
           [ (lit "create", PStr (lit "Ctrl+Alt+C")); (lit "toggle", PStr (lit "Ctrl+Alt+T")) ]
           [ (lit "suspend_enh", PStr (lit "Ctrl+Alt+E")) ]
           (lit "delete", PStr (lit "Ctrl+Alt+Nope"))
           (ParseFailed (UnknownKeyName (lit "Nope"))) 1%nat
           [(1, (3, 67)); (2, (3, 84))]).
  - apply (registers_cons accept_unowned [] _ _ 1 3 67); try reflexivity.
    apply (registers_cons accept_unowned _ _ _ 2 3 84); try reflexivity.
    apply registers_nil.
  - apply (fails_parse accept_unowned _ _ _ 3); reflexivity.
Defined.

Lemma put_ok_not_failed (rs : list (nat * response)) q q' action why :
  rs ++ [(q, RespFailed action why)] <> rs ++ [(q', RespOk)].
Proof.
  intro E. apply app_inj_tail in E as [_ E]. discriminate.
Qed.

(** A Register command answered Ok leaves exactly the bindings of its map
    registered, in the order of the map. *)
Lemma register_ok_registers_map accepts hm q th :
  consistent th ->
  responses (do_register accepts hm (Some q) th) = responses th ++ [(q, RespOk)] ->
  Forall2 binding_of hm (os_hotkeys (do_register accepts hm (Some q) th))
  /\ registered_ids (do_register accepts hm (Some q) th)
     = map fst (os_hotkeys (do_register accepts hm (Some q) th)).
Proof.
  intros C. unfold do_register. rewrite (unregister_all_consistent _ C).
  destruct (register_loop accepts hm [] []) as [[ids t1] failed] eqn:E.
  destruct failed as [[action why]|]; cbn; intro R.
  - exfalso. exact (put_ok_not_failed _ _ _ _ _ R).
  - destruct (register_loop_ok accepts _ _ _ _ _ E) as (hs & F & -> & ->).
    split; [exact F | reflexivity].
Qed.

(** C9: after Register(mapA) and then Register(mapB), both answered Ok,
    the hotkeys of the thread are exactly the bindings of mapB (those of
    mapA were in place in between and are gone), and [registered_ids]
    lists their ids. *)
Theorem register_twice_keeps_only_second
  (accepts : table -> Z -> Z -> Z -> bool)
  (inputs : list (list command * getmessage)) (mapA mapB : hotmap) (qa qb : nat) :
  let th := hotkey_thread_func accepts inputs in
  let th1 := handle_command accepts (Register mapA (Some qa)) th in
  let th2 := handle_command accepts (Register mapB (Some qb)) th1 in
  responses th1 = responses th ++ [(qa, RespOk)] ->
  responses th2 = responses th1 ++ [(qb, RespOk)] ->
  Forall2 binding_of mapA (os_hotkeys th1)
  /\ Forall2 binding_of mapB (os_hotkeys th2)
  /\ registered_ids th2 = map fst (os_hotkeys th2).
Proof.
  intros th th1 th2 Ra Rb. subst th th1 th2. cbn [handle_command] in *.
  pose proof (hotkey_thread_consistent accepts inputs) as C.
  pose proof (do_register_consistent accepts mapA (Some qa) _ C) as C1.
  split.
  - exact (proj1 (register_ok_registers_map accepts mapA qa _ C Ra)).
  - exact (register_ok_registers_map accepts mapB qb _ C1 Rb).
Qed.

Lemma register_twice_keeps_only_second_witness :
  let mapB := [ (lit "toggle", PStr (lit "Ctrl+Alt+C")); (lit "create", PStr (lit "Shift+F5")) ] in
  let th := hotkey_thread_func accept_unowned [] in
  let th1 := handle_command accept_unowned (Register (as_hotmap DEFAULT_HOTKEYS) (Some 0%nat)) th in
  let th2 := handle_command accept_unowned (Register mapB (Some 1%nat)) th1 in
  os_hotkeys th2 = [(2, (3, 67)); (1, (4, 116))]
  /\ Forall2 binding_of (as_hotmap DEFAULT_HOTKEYS) (os_hotkeys th1)
  /\ Forall2 binding_of mapB (os_hotkeys th2)
  /\ registered_ids th2 = map fst (os_hotkeys th2).
Proof.
  split; [reflexivity|].
  apply (register_twice_keeps_only_second accept_unowned [] (as_hotmap DEFAULT_HOTKEYS)
           [ (lit "toggle", PStr (lit "Ctrl+Alt+C")); (lit "create", PStr (lit "Shift+F5")) ]
           0%nat 1%nat); reflexivity.
Defined.

(** C8: a Stop command that the thread reaches, after any earlier rounds
    and any commands queued before it, leaves [registered_ids] empty and
    no hotkey of the thread in the system table, puts the acknowledgement
    on the response queue, and ends the thread function: nothing queued
    behind it or supplied later is processed. *)
Theorem stop_unregisters_acknowledges_and_ends
  (accepts : table -> Z -> Z -> Z -> bool)
  (inputs : list (list command * getmessage))
  (before after : list command) (gm : getmessage) (q : nat) :
  let th := hotkey_thread_func accepts inputs in
  let th0 := drain accepts before th in
  let th' := iteration accepts th (before ++ Stop (Some q) :: after, gm) in
  running th0 = true ->
  registered_ids th' = [] /\ os_hotkeys th' = []
  /\ responses th' = responses th0 ++ [(q, RespStopped)]
  /\ event_queue th' = event_queue th0
  /\ running th' = false
  /\ forall more, fold_left (iteration accepts) more th' = th'.
Proof.
  intros th th0 th' R0.
  assert (R : running th = true).
  { destruct (running th) eqn:R; [reflexivity|].
    subst th0. rewrite (drain_stopped accepts before th R) in R0. congruence. }
  assert (E : th' = do_stop (Some q) th0).
  { subst th' th0. unfold iteration. rewrite R. cbn [fst snd].
    rewrite drain_app, R0. cbn [drain]. rewrite R0. cbn [handle_command].
    rewrite drain_stopped by reflexivity. reflexivity. }
  assert (C : consistent th0).
  { subst th0 th. apply drain_consistent, hotkey_thread_consistent. }
  rewrite E. unfold do_stop at 1 2 3 4 5. cbn.
  rewrite (unregister_all_consistent _ C). repeat split.
  intro more. now apply iterations_stopped.
Qed.

Lemma stop_unregisters_acknowledges_and_ends_witness :
  let th := hotkey_thread_func accept_unowned [] in
  let th0 := drain accept_unowned [Register (as_hotmap DEFAULT_HOTKEYS) (Some 0%nat)] th in
  let th' := iteration accept_unowned th
               ([Register (as_hotmap DEFAULT_HOTKEYS) (Some 0%nat); Stop (Some 1%nat);
                 Register (as_hotmap DEFAULT_HOTKEYS) (Some 2%nat)], GM_message WM_HOTKEY 1) in
  registered_ids th0 = [1; 2; 3; 4]
  /\ registered_ids th' = [] /\ os_hotkeys th' = []
  /\ responses th' = responses th0 ++ [(1%nat, RespStopped)]
  /\ event_queue th' = event_queue th0
  /\ running th' = false
  /\ forall more, fold_left (iteration accept_unowned) more th' = th'.
Proof.
  split; [reflexivity|].
  apply (stop_unregisters_acknowledges_and_ends accept_unowned []
           [Register (as_hotmap DEFAULT_HOTKEYS) (Some 0%nat)]
           [Register (as_hotmap DEFAULT_HOTKEYS) (Some 2%nat)]
           (GM_message WM_HOTKEY 1) 1%nat).
  reflexivity.
Defined.

(** C3, as stated, fails: after [GetMessageW] returns -1 the thread has
    reported the fault but is still in its loop, and reports the hotkey
    of the next message. *)
Lemma getmessage_error_does_not_end_thread :
  let th1 := hotkey_thread_func accept_all [([], GM_error)] in
  let th2 := hotkey_thread_func accept_all [([], GM_error); ([], GM_message WM_HOTKEY 1)] in
  event_queue th1 = [Fault GetMessageFailed] /\ running th1 = true
  /\ event_queue th2 = [Fault GetMessageFailed; Fired 1] /\ running th2 = true.
Proof. repeat split. Qed.

(** C3 (amended): in a round the thread reaches [GetMessageW] in, a return
    value of -1 puts a Fault event on the event queue and the thread stays
    in its loop with its registrations as they were; an exception raised
    there puts a Fault event with the traceback on the event queue,
    unregisters the hotkeys of the thread and ends the thread function,
    after which no further round is processed. *)
Theorem getmessage_fault_is_reported
  (accepts : table -> Z -> Z -> Z -> bool)
  (inputs : list (list command * getmessage)) (cmds : list command) (tb : str) :
  let th := hotkey_thread_func accepts inputs in
  let th0 := drain accepts cmds th in
  let e := iteration accepts th (cmds, GM_error) in
  let x := iteration accepts th (cmds, GM_raises tb) in
  running th0 = true ->
  (event_queue e = event_queue th0 ++ [Fault GetMessageFailed]
   /\ running e = true
   /\ registered_ids e = registered_ids th0 /\ os_hotkeys e = os_hotkeys th0)
  /\ (event_queue x = event_queue th0 ++ [Fault (Traceback tb)]
      /\ running x = false /\ os_hotkeys x = []
      /\ forall more, fold_left (iteration accepts) more x = x).
Proof.
  intros th th0 e x R0.
  assert (R : running th = true).
  { destruct (running th) eqn:R; [reflexivity|].
    subst th0. rewrite (drain_stopped accepts cmds th R) in R0. congruence. }
  assert (C : consistent th0).
  { subst th0 th. apply drain_consistent, hotkey_thread_consistent. }
  subst e x. unfold iteration. rewrite R. cbn [fst snd]. fold th0. rewrite R0.
  split.
  - cbn. repeat split.
  - cbn. rewrite (unregister_all_consistent _ C). repeat split.
    intro more. now apply iterations_stopped.
Qed.

Lemma getmessage_fault_is_reported_witness :
  let th := hotkey_thread_func accept_unowned [] in
  let cmds := [Register (as_hotmap DEFAULT_HOTKEYS) (Some 0%nat)] in
  let th0 := drain accept_unowned cmds th in
  let e := iteration accept_unowned th (cmds, GM_error) in
  let x := iteration accept_unowned th (cmds, GM_raises (lit "OSError")) in
  (event_queue e = event_queue th0 ++ [Fault GetMessageFailed]
   /\ running e = true
   /\ registered_ids e = registered_ids th0 /\ os_hotkeys e = os_hotkeys th0)
  /\ (event_queue x = event_queue th0 ++ [Fault (Traceback (lit "OSError"))]
      /\ running x = false /\ os_hotkeys x = []
      /\ forall more, fold_left (iteration accept_unowned) more x = x).
Proof.
  apply (getmessage_fault_is_reported accept_unowned []
           [Register (as_hotmap DEFAULT_HOTKEYS) (Some 0%nat)] (lit "OSError")).
  reflexivity.
Defined.

(* ===================================================================== *)
(** ** The capture dialog: commits *)

Lemma zseq_In (n : nat) : forall lo z, In z (zseq lo n) -> lo <= z < lo + Z.of_nat n.
Proof.
  induction n as [|n IH]; intros lo z H; simpl in H.
  - destruct H.
  - destruct H as [<-|H]; [lia|]. apply IH in H. lia.
Qed.

Lemma sample_non_mod_In keys vk :
  In vk (sample_non_mod keys) ->
  VK_MIN <= vk <= VK_MAX /\ is_modifier_vk vk = false /\ key_down keys vk = true.
Proof.
  unfold sample_non_mod. rewrite filter_In. intros [R H].
  apply zseq_In in R. apply andb_true_iff in H as [H1 H2].
  apply negb_true_iff in H1. unfold VK_MIN, VK_MAX in *. repeat split; try assumption; lia.
Qed.

Lemma is_empty_nil {A : Type} (l : list A) : is_empty l = true <-> l = [].
Proof. destruct l; simpl; split; congruence. Qed.

Lemma is_empty_cons {A : Type} (l : list A) : is_empty l = false <-> l <> [].
Proof. destruct l; simpl; split; congruence. Qed.

Lemma commit_capture_cases (vk mods : Z) (caps : list str) :
  commit_capture vk mods caps = caps
  \/ commit_capture vk mods caps = caps ++ [hotkey_to_string mods vk].
Proof.
  unfold commit_capture.
  destruct (is_empty caps || negb (str_eqb (last caps []) (hotkey_to_string mods vk)));
    [now right | now left].
Qed.

Lemma commit_capture_In (vk mods : Z) (caps : list str) (hk : str) :
  In hk (commit_capture vk mods caps) -> In hk caps \/ hk = hotkey_to_string mods vk.
Proof.
  destruct (commit_capture_cases vk mods caps) as [-> | ->]; [now left|].
  intro H. apply in_app_or in H as [H|[<-|[]]]; [now left | now right].
Qed.

Lemma last_snoc {A : Type} (l : list A) (x d : A) : last (l ++ [x]) d = x.
Proof.
  induction l as [|y l IH]; [reflexivity|].
  cbn [app]. destruct (l ++ [x]) eqn:E.
  - destruct l; discriminate E.
  - cbn [last]. exact IH.
Qed.

Lemma commit_capture_appends (vk mods : Z) (caps : list str) :
  caps = [] \/ last caps [] <> hotkey_to_string mods vk ->
  commit_capture vk mods caps = caps ++ [hotkey_to_string mods vk].
Proof.
  intro H. unfold commit_capture. cbv zeta.
  destruct H as [-> | N]; [reflexivity|].
  destruct (str_eqb (last caps []) (hotkey_to_string mods vk)) eqn:E.
  - apply str_eqb_eq in E. contradiction.
  - cbn [negb]. now rewrite orb_true_r.
Qed.

Lemma commit_capture_skips (vk mods : Z) (caps : list str) :
  caps <> [] -> last caps [] = hotkey_to_string mods vk ->
  commit_capture vk mods caps = caps.
Proof.
  intros N E. unfold commit_capture. cbv zeta.
  apply is_empty_cons in N. rewrite N.
  apply str_eqb_eq in E. now rewrite E.
Qed.

Lemma commit_capture_last (vk mods : Z) (caps : list str) :
  commit_capture vk mods caps <> []
  /\ last (commit_capture vk mods caps) [] = hotkey_to_string mods vk.
Proof.
  unfold commit_capture. cbv zeta.
  destruct (is_empty caps) eqn:Em; cbn [orb].
  - split; [destruct caps; discriminate | apply last_snoc].
  - destruct (str_eqb (last caps []) (hotkey_to_string mods vk)) eqn:E; cbn [negb].
    + split; [now apply is_empty_cons | now apply str_eqb_eq].
    + split; [destruct caps; discriminate | apply last_snoc].
Qed.

Section CaptureFacts.

Variable timeout : Z.
Variable first_of : list Z -> Z.
Hypothesis first_of_In : forall l, l <> [] -> In (first_of l) l.

Local Abbreviation step := (dialog_step timeout first_of).
Local Abbreviation run := (run_dialog timeout first_of).
Local Abbreviation pressed := (pressed_in timeout first_of).
Local Abbreviation released := (released_in timeout first_of).
Local Abbreviation explained := (commits_explained timeout first_of).
Local Abbreviation recorded := (press_recorded timeout first_of).

Arguments sample_non_mod : simpl never.
Arguments sample_mods : simpl never.
Arguments hotkey_to_string : simpl never.
Arguments commit_capture : simpl never.

Lemma run_snoc evs e : run (evs ++ [e]) = step (run evs) e.
Proof. unfold run_dialog. now rewrite fold_left_app. Qed.

Lemma pressed_in_snoc evs e vk mods :
  pressed evs vk mods -> pressed (evs ++ [e]) vk mods.
Proof.
  intros (evs1 & tP & keysP & evs2 & -> & H).
  exists evs1, tP, keysP, (evs2 ++ [e]). split; [|exact H].
  now rewrite <- app_assoc.
Qed.

Lemma released_in_snoc evs e vk mods :
  released evs vk mods -> released (evs ++ [e]) vk mods.
Proof.
  intros (evs0 & tR & keysR & evs3 & -> & H).
  exists evs0, tR, keysR, (evs3 ++ [e]). split; [|exact H].
  now rewrite <- app_assoc.
Qed.

Lemma step_invariant evs e :
  explained evs -> recorded evs ->
  explained (evs ++ [e]) /\ recorded (evs ++ [e]).
Proof.
  unfold commits_explained, press_recorded. cbv zeta.
  rewrite run_snoc. remember (run evs) as c eqn:Ec. intros A B.
  assert (Old : forall hk, In hk (captures c) ->
                exists vk mods, released (evs ++ [e]) vk mods
                                /\ hk = hotkey_to_string mods vk).
  { intros hk H. destruct (A hk H) as (vk & mods & R & ->).
    exists vk, mods. split; [now apply released_in_snoc | reflexivity]. }
  assert (Same : forall c', captures c' = captures c ->
                 pressed_non_mod c' = pressed_non_mod c ->
                 last_non_mod_vk c' = last_non_mod_vk c ->
                 last_mods c' = last_mods c ->
                 (forall hk, In hk (captures c') ->
                    exists vk mods, released (evs ++ [e]) vk mods
                                    /\ hk = hotkey_to_string mods vk)
                 /\ (pressed_non_mod c' = true ->
                     forall vk, last_non_mod_vk c' = Some vk ->
                                pressed (evs ++ [e]) vk (last_mods c'))).
  { intros c' E0 E1 E2 E3. rewrite E0, E1, E2, E3. split; [exact Old|].
    intros P vk L. apply pressed_in_snoc. now apply B. }
  destruct e as [t keys | | ]; cbn [dialog_step].
  2,3: destruct (done c); apply Same; reflexivity.
  unfold poll.
  destruct (done c) eqn:D; [apply Same; reflexivity|].
  destruct (t >? timeout) eqn:T; [apply Same; reflexivity|].
  assert (Ht : t <= timeout) by lia.
  destruct (negb (is_empty (sample_non_mod keys)) && is_empty (prev_non_mod c)) eqn:Press.
  - (* a key goes down *)
    apply andb_true_iff in Press as [P1 P2].
    apply negb_true_iff, is_empty_cons in P1. apply is_empty_nil in P2.
    split; [exact Old|].
    intros _ vk L. cbn [last_non_mod_vk] in L. injection L as <-. cbn [last_mods].
    exists evs, t, keys, []. rewrite <- Ec.
    repeat split; try assumption. now apply first_of_In.
  - destruct (is_empty (sample_non_mod keys) && negb (is_empty (prev_non_mod c))) eqn:Release.
    + (* all keys are up *)
      apply andb_true_iff in Release as [R1 _]. apply is_empty_nil in R1.
      split; [|intro P; discriminate P].
      intros hk Hin. cbn [captures] in Hin.
      destruct (pressed_non_mod c) eqn:P; cbn [andb] in Hin; [|now apply Old].
      destruct (last_non_mod_vk c) as [vk|] eqn:L; cbn [truthy] in Hin; [|now apply Old].
      destruct (negb (vk =? 0)); [|now apply Old].
      apply commit_capture_In in Hin as [H| ->]; [now apply Old|].
      exists vk, (last_mods c). split; [|reflexivity].
      exists evs, t, keys, []. rewrite <- Ec.
      repeat split; try assumption. now apply B.
    + apply Same; reflexivity.
Qed.

Lemma run_invariant evs : explained evs /\ recorded evs.
Proof.
  induction evs as [|e evs IH] using rev_ind.
  - split; [intros hk [] | intro P; discriminate P].
  - destruct IH as [A B]. now apply step_invariant.
Qed.

(** While some key stays down no sample commits anything, whatever else
    happens to the dialog. *)
Lemma held_keys_commit_nothing held : forall c,
  (forall t keys, In (Tick t keys) held -> sample_non_mod keys <> []) ->
  captures (fold_left step held c) = captures c.
Proof.
  induction held as [|e held IH]; intros c H; cbn [fold_left]; [reflexivity|].
  rewrite IH by (intros t keys Hin; apply (H t keys); now right).
  destruct e as [t keys | | ]; cbn [dialog_step].
  2,3: destruct (done c); reflexivity.
  unfold poll.
  destruct (done c); [reflexivity|].
  destruct (t >? timeout); [reflexivity|].
  assert (N : is_empty (sample_non_mod keys) = false).
  { apply is_empty_cons, (H t keys). now left. }
  rewrite N. cbn [negb andb].
  destruct (is_empty (prev_non_mod c)); reflexivity.
Qed.

(** A key going down and then all keys going up, on a dialog with no key
    down before, is one call of [commit_capture] with the key and the mask
    of the first sample. *)
Lemma press_release_commits c tP keysP tR keysR :
  done c = false -> prev_non_mod c = [] ->
  tP <= timeout -> tR <= timeout ->
  sample_non_mod keysP <> [] -> sample_non_mod keysR = [] ->
  step (step c (Tick tP keysP)) (Tick tR keysR)
  = mkCapture (commit_capture (first_of (sample_non_mod keysP)) (sample_mods keysP)
                              (captures c))
              None (sample_mods keysP) false false [].
Proof.
  intros D P HP HR Press Release.
  assert (V : (first_of (sample_non_mod keysP) =? 0) = false).
  { apply Z.eqb_neq. pose proof (first_of_In _ Press) as I.
    apply sample_non_mod_In in I. unfold VK_MIN in I. lia. }
  apply is_empty_cons in Press.
  cbn [dialog_step]. unfold poll at 2. rewrite D, P.
  replace (tP >? timeout) with false by lia.
  rewrite Press. cbn [negb andb is_empty].
  unfold poll. cbn [done prev_non_mod pressed_non_mod last_non_mod_vk last_mods captures].
  replace (tR >? timeout) with false by lia.
  rewrite Release, Press. cbn [negb andb is_empty truthy]. rewrite V. reflexivity.
Qed.

(** The same key with the same modifiers, pressed and released twice in a
    row, adds at most one entry to the list. *)
Lemma same_combo_twice_commits_once c keysP keysR t1 t2 t3 t4 :
  done c = false -> prev_non_mod c = [] ->
  t1 <= timeout -> t2 <= timeout -> t3 <= timeout -> t4 <= timeout ->
  sample_non_mod keysP <> [] -> sample_non_mod keysR = [] ->
  captures (fold_left step [Tick t1 keysP; Tick t2 keysR; Tick t3 keysP; Tick t4 keysR] c)
  = commit_capture (first_of (sample_non_mod keysP)) (sample_mods keysP) (captures c).
Proof.
  intros D P H1 H2 H3 H4 Press Release. cbn [fold_left].
  rewrite (press_release_commits c t1 keysP t2 keysR) by assumption.
  rewrite press_release_commits by (try assumption; reflexivity).
  cbn [captures].
  destruct (commit_capture_last (first_of (sample_non_mod keysP)) (sample_mods keysP)
                                (captures c)) as [N L].
  now apply commit_capture_skips.
Qed.

Lemma open_while_nothing_closes evs : forall c,
  done c = false -> existsb (closes timeout) evs = false ->
  done (fold_left step evs c) = false.
Proof.
  induction evs as [|e evs IH]; intros c D H; cbn [fold_left]; [exact D|].
  cbn [existsb] in H. apply orb_false_iff in H as [H1 H2].
  apply IH; [|exact H2].
  destruct e as [t keys | | ]; cbn [closes] in H1; try discriminate H1.
  cbn [dialog_step]. unfold poll. rewrite D, H1.
  destruct (negb (is_empty (sample_non_mod keys)) && is_empty (prev_non_mod c));
    [reflexivity|].
  destruct (is_empty (sample_non_mod keys) && negb (is_empty (prev_non_mod c)));
    reflexivity.
Qed.

Lemma closing_event_closes c e :
  done c = false -> closes timeout e = true -> step c e = close_and_return c.
Proof.
  intros D H. destruct e as [t keys | | ]; cbn [dialog_step closes] in *.
  - unfold poll. now rewrite D, H.
  - now rewrite D.
  - now rewrite D.
Qed.

Lemma closed_dialog_ignores evs : forall c,
  done c = true -> fold_left step evs c = c.
Proof.
  induction evs as [|e evs IH]; intros c D; cbn [fold_left]; [reflexivity|].
  assert (E : step c e = c).
  { destruct e; cbn [dialog_step]; unfold poll; now rewrite D. }
  rewrite E. now apply IH.
Qed.

End CaptureFacts.

Lemma first_listed_In (l : list Z) : l <> [] -> In (first_listed l) l.
Proof. destruct l as [|x l]; [congruence | intros _; now left]. Qed.

(* ===================================================================== *)
(** ** The capture dialog: the claims *)

(** C5 on the code: the user presses the Ctrl key alone and lets it go.
    While the key is down, the system reports the key code of Ctrl (0x11)
    and that of the left Ctrl key (0xA2) as down; the scan skips the
    first and takes the second for a key, and the release commits a combo
    of no key but the modifier: the text "Ctrl+" followed by the
    character of code 0xA2.  The session returns it. *)
Theorem ctrl_alone_is_committed :
  let evs := [ Tick 1 (keys_down [0x11; 0xA2]); Tick 2 (keys_down []) ] in
  sample_mods (keys_down [0x11; 0xA2]) = MOD_CONTROL
  /\ sample_non_mod (keys_down [0x11; 0xA2]) = [0xA2]
  /\ captures (run_dialog 12 first_listed evs) = [lit "Ctrl+" ++ [0xA2]]
  /\ capture_hotkey_dialog 12 first_listed (evs ++ [Save]) = Some (Some [lit "Ctrl+" ++ [0xA2]]).
Proof. vm_compute. repeat split. Qed.

(** X24: every text in the list of a capture session comes from a sample
    in which a scanned key code went down (taken before the timeout by
    the open dialog, which had seen no scanned code down just before),
    followed later by a sample in which no scanned code was down (taken
    before the timeout by the open dialog); the text is that code with
    the modifier mask of the first of the two samples.  And while some
    scanned code stays down (a key is pressed but not released), nothing
    is added to the list, whatever else happens until the dialog closes.
    The scanned codes are those of 1..254 other than 0x10, 0x11, 0x12,
    0x5B and 0x5C: the codes of the left and right Shift, Ctrl and Alt
    keys are scanned. *)
Theorem commit_needs_press_then_release
  (timeout : Z) (first_of : list Z -> Z) (evs : list ui_event) :
  (forall l, l <> [] -> In (first_of l) l) ->
  (forall hk, In hk (captures (run_dialog timeout first_of evs)) ->
     exists evs1 tP keysP evs2 tR keysR evs3 vk,
       evs = evs1 ++ Tick tP keysP :: evs2 ++ Tick tR keysR :: evs3
       /\ done (run_dialog timeout first_of evs1) = false
       /\ prev_non_mod (run_dialog timeout first_of evs1) = []
       /\ In vk (sample_non_mod keysP) /\ tP <= timeout
       /\ done (run_dialog timeout first_of (evs1 ++ Tick tP keysP :: evs2)) = false
       /\ sample_non_mod keysR = [] /\ tR <= timeout
       /\ hk = hotkey_to_string (sample_mods keysP) vk)
  /\ (forall held,
        (forall t keys, In (Tick t keys) held -> sample_non_mod keys <> []) ->
        captures (run_dialog timeout first_of (evs ++ held))
        = captures (run_dialog timeout first_of evs)).
Proof.
  intro F. split.
  - intros hk Hin.
    destruct (run_invariant timeout first_of F evs) as [A _].
    destruct (A hk Hin) as (vk & mods & R & ->).
    destruct R as (evs0 & tR & keysR & evs3 & -> & P & DR & HR & HtR).
    destruct P as (evs1 & tP & keysP & evs2 & -> & DP & PP & HP & HtP & ->).
    exists evs1, tP, keysP, evs2, tR, keysR, evs3, vk.
    repeat split; try assumption. now rewrite <- app_assoc.
  - intros held H. unfold run_dialog. rewrite fold_left_app.
    now apply held_keys_commit_nothing.
Qed.

Lemma commit_needs_press_then_release_witness :
  let evs := [ Tick 1 (keys_down [0x11; 0x12; 0x4B]); Tick 2 (keys_down [0x4B]);
               Tick 3 (keys_down []) ] in
  captures (run_dialog 12 first_listed evs) = [lit "Ctrl+Alt+K"]
  /\ (forall hk, In hk (captures (run_dialog 12 first_listed evs)) ->
        exists evs1 tP keysP evs2 tR keysR evs3 vk,
          evs = evs1 ++ Tick tP keysP :: evs2 ++ Tick tR keysR :: evs3
          /\ done (run_dialog 12 first_listed evs1) = false
          /\ prev_non_mod (run_dialog 12 first_listed evs1) = []
          /\ In vk (sample_non_mod keysP) /\ tP <= 12
          /\ done (run_dialog 12 first_listed (evs1 ++ Tick tP keysP :: evs2)) = false
          /\ sample_non_mod keysR = [] /\ tR <= 12
          /\ hk = hotkey_to_string (sample_mods keysP) vk)
  /\ (forall held,
        (forall t keys, In (Tick t keys) held -> sample_non_mod keys <> []) ->
        captures (run_dialog 12 first_listed (evs ++ held))
        = captures (run_dialog 12 first_listed evs)).
Proof.
  split; [reflexivity|].
  exact (commit_needs_press_then_release 12 first_listed
           [ Tick 1 (keys_down [0x11; 0x12; 0x4B]); Tick 2 (keys_down [0x4B]);
             Tick 3 (keys_down []) ]
           first_listed_In).
Defined.

(** C6 on the code: a session that ran and was closed with nothing
    committed, by a button or by the timeout, returns the value None, not
    the empty list that the docstring of [capture_hotkey_dialog]
    promises for a session that was not aborted at once. *)
Theorem capture_without_commit_returns_None :
  capture_hotkey_dialog 12 first_listed [Tick 1 (keys_down []); Save] = Some None
  /\ capture_hotkey_dialog 12 first_listed
       [Tick 1 (keys_down []); Tick 2 (keys_down [0x10]); Tick 3 (keys_down []); Cancel]
     = Some None
  /\ capture_hotkey_dialog 12 first_listed [Tick 1 (keys_down []); Tick 13 (keys_down [])]
     = Some None
  /\ capture_hotkey_dialog 12 first_listed [Tick 1 (keys_down [0x4B]); Tick 13 (keys_down [])]
     = Some None
  /\ capture_hotkey_dialog 12 first_listed [Tick 1 (keys_down []); Save] <> Some (Some []).
Proof. vm_compute. repeat split; discriminate. Qed.

(** X25: a capture session stays open until the first Save, Cancel or
    sample taken after the timeout; it then returns, whatever follows,
    the list of the combos committed until then when there is at least
    one (there may be several), and the value None when there is none. *)
Theorem capture_returns_commits_or_None
  (timeout : Z) (first_of : list Z -> Z)
  (evs : list ui_event) (closing : ui_event) (rest : list ui_event) :
  existsb (closes timeout) evs = false ->
  closes timeout closing = true ->
  capture_hotkey_dialog timeout first_of evs = None
  /\ capture_hotkey_dialog timeout first_of (evs ++ closing :: rest)
     = Some (match captures (run_dialog timeout first_of evs) with
             | [] => None
             | hk :: more => Some (hk :: more)
             end).
Proof.
  intros Open Close.
  assert (D : done (run_dialog timeout first_of evs) = false).
  { apply open_while_nothing_closes; [reflexivity | exact Open]. }
  split.
  - unfold capture_hotkey_dialog. now rewrite D.
  - unfold capture_hotkey_dialog, run_dialog.
    rewrite fold_left_app. cbn [fold_left].
    fold (run_dialog timeout first_of evs).
    rewrite (closing_event_closes timeout first_of _ _ D Close).
    rewrite closed_dialog_ignores by reflexivity.
    cbn [close_and_return done captures].
    destruct (captures (run_dialog timeout first_of evs)); reflexivity.
Qed.

Lemma capture_returns_commits_or_None_witness :
  let evs := [ Tick 1 (keys_down [0x11; 0x12; 0x4B]); Tick 2 (keys_down []);
               Tick 3 (keys_down [0x10; 0x74]); Tick 4 (keys_down [0x10]) ] in
  capture_hotkey_dialog 12 first_listed evs = None
  /\ capture_hotkey_dialog 12 first_listed (evs ++ Tick 13 (keys_down []) :: [Save])
     = Some (Some [lit "Ctrl+Alt+K"; lit "Shift+F5"]).
Proof.
  exact (capture_returns_commits_or_None 12 first_listed
           [ Tick 1 (keys_down [0x11; 0x12; 0x4B]); Tick 2 (keys_down []);
             Tick 3 (keys_down [0x10; 0x74]); Tick 4 (keys_down [0x10]) ]
           (Tick 13 (keys_down [])) [Save] eq_refl eq_refl).
Defined.

(** C7, as stated, fails: the key A (0x41) and the key 1 of the numeric
    keypad (0x61) are different keys written as the same text; committed
    one after the other with the same modifiers, the second is not
    appended, and in a session that presses and releases A, keypad 1 and
    A again the list holds a single entry. *)
Lemma different_keys_with_one_text_are_deduplicated :
  0x41 <> 0x61
  /\ hotkey_to_string 0 0x41 = lit "A" /\ hotkey_to_string 0 0x61 = lit "A"
  /\ commit_capture 0x61 0 (commit_capture 0x41 0 []) = [lit "A"]
  /\ capture_hotkey_dialog 12 first_listed
       [ Tick 1 (keys_down [0x41]); Tick 2 (keys_down []);
         Tick 3 (keys_down [0x61]); Tick 4 (keys_down []);
         Tick 5 (keys_down [0x41]); Tick 6 (keys_down []); Save ]
     = Some (Some [lit "A"]).
Proof. vm_compute. repeat split; discriminate. Qed.

(** C7 (amended): a combo is appended to the list exactly when the list is
    empty or its last entry is another text than the text of the combo;
    so committing the same modifiers and key twice in a row adds one
    entry, and committing them again after a commit with another text
    adds them again. *)
Theorem consecutive_commits_deduplicated (vk mods : Z) (caps : list str) :
  let hk := hotkey_to_string mods vk in
  (caps = [] \/ last caps [] <> hk -> commit_capture vk mods caps = caps ++ [hk])
  /\ (caps <> [] /\ last caps [] = hk -> commit_capture vk mods caps = caps)
  /\ commit_capture vk mods (commit_capture vk mods caps) = commit_capture vk mods caps
  /\ (forall vk' mods',
        hotkey_to_string mods' vk' <> hk ->
        commit_capture vk mods (commit_capture vk' mods' (commit_capture vk mods caps))
        = commit_capture vk mods caps ++ [hotkey_to_string mods' vk'; hk]).
Proof.
  intro hk. subst hk.
  destruct (commit_capture_last vk mods caps) as [N L].
  repeat split.
  - apply commit_capture_appends.
  - intros [N0 E]. now apply commit_capture_skips.
  - now apply commit_capture_skips.
  - intros vk' mods' D.
    rewrite (commit_capture_appends vk' mods' (commit_capture vk mods caps)).
    2:{ right. rewrite L. congruence. }
    rewrite commit_capture_appends.
    2:{ right. rewrite last_snoc. exact D. }
    now rewrite <- app_assoc.
Qed.

Lemma consecutive_commits_deduplicated_witness :
  commit_capture 0x4B 3 [lit "Ctrl+Alt+K"] = [lit "Ctrl+Alt+K"]
  /\ commit_capture 0x4B 3 (commit_capture 0x54 3 (commit_capture 0x4B 3 []))
     = commit_capture 0x4B 3 [] ++ [hotkey_to_string 3 0x54; hotkey_to_string 3 0x4B].
Proof.
  split.
  - apply (proj1 (proj2 (consecutive_commits_deduplicated 0x4B 3 [lit "Ctrl+Alt+K"]))).
    split; [discriminate | reflexivity].
  - apply (proj2 (proj2 (proj2 (consecutive_commits_deduplicated 0x4B 3 [])))).
    vm_compute. discriminate.
Defined.

(* ===================================================================== *)
(** ** The event dispatcher and the flag *)

(** With the flag set, [check_queue] starts no action. *)
Lemma check_queue_drops_while_flag_set items : forall a,
  RECORDING_PAUSE_HOTKEYS a = true -> check_queue items a = a.
Proof.
  unfold check_queue.
  induction items as [|[item yes] items IH]; intros a H; cbn [fold_left]; [reflexivity|].
  destruct item; rewrite ?H; now apply IH.
Qed.

Lemma handle_hotkey_keeps_flag yes id_ a :
  RECORDING_PAUSE_HOTKEYS (handle_hotkey yes id_ a) = RECORDING_PAUSE_HOTKEYS a.
Proof.
  unfold handle_hotkey.
  repeat match goal with |- context [if ?b then _ else _] => destruct b end; reflexivity.
Qed.

Lemma check_queue_keeps_flag items : forall a,
  RECORDING_PAUSE_HOTKEYS (check_queue items a) = RECORDING_PAUSE_HOTKEYS a.
Proof.
  unfold check_queue.
  induction items as [|[item yes] items IH]; intro a; cbn [fold_left]; [reflexivity|].
  rewrite IH. destruct item; [|reflexivity].
  destruct (RECORDING_PAUSE_HOTKEYS a) eqn:E; [exact E|].
  now rewrite handle_hotkey_keeps_flag.
Qed.

(** Nothing that happens while the dialog is open changes the flag: it is
    as the caller left it. *)
Lemma capture_session_keeps_flag timeout first_of evs : forall g,
  RECORDING_PAUSE_HOTKEYS (gui_app (fold_left (gui_step timeout first_of) evs g))
  = RECORDING_PAUSE_HOTKEYS (gui_app g).
Proof.
  induction evs as [|e evs IH]; intro g; cbn [fold_left]; [reflexivity|].
  rewrite IH. destruct e; cbn [gui_step gui_app]; [reflexivity|].
  apply check_queue_keeps_flag.
Qed.





(* ===================================================================== *)
(** ** The codec: errors, masks and function keys *)

Lemma forallb_isspace_lstrip s : forallb isspace (lstrip s) = forallb isspace s.
Proof.
  induction s as [|c s IH]; [reflexivity|].
  cbn [lstrip]. destruct (isspace c) eqn:C; cbn [forallb]; rewrite C; [exact IH | reflexivity].
Qed.

Lemma strip_blank s : negb (nonempty (strip s)) = forallb isspace s.
Proof.
  rewrite <- forallb_isspace_lstrip, <- rstrip_nil. unfold strip.
  destruct (rstrip (lstrip s)); reflexivity.
Qed.

(** [parse_hotkey_string] read on the parts of the text itself. *)
Lemma parse_unfold s :
  parse_hotkey_string s =
  if forallb isspace s then Raise EmptyHotkey
  else match last_key (parts_of s) None with
       | None => Raise NoKeySpecified
       | Some key =>
           match key_to_vk key with
           | Ok vk => Ok (mods_of (parts_of s) 0, vk)
           | Raise e => Raise e
           end
       end.
Proof.
  unfold parse_hotkey_string. cbv zeta.
  rewrite strip_blank, parts_of_strip, parse_step_fold. reflexivity.
Qed.

Lemma key_to_vk_raises key e :
  key_to_vk key = Raise e ->
  e = IntValueError \/ e = InvalidFunctionKey \/ e = OrdTypeError \/ e = UnknownKeyName key.
Proof.
  unfold key_to_vk.
  destruct (startswith (upper key) (lit "F") && isdigit (tl key)).
  - destruct (int (tl key)) as [n|].
    + destruct ((1 <=? n) && (n <=? 24)); intro H; [discriminate H|].
      injection H as <-. tauto.
    + intro H. injection H as <-. tauto.
  - destruct (Z.of_nat (List.length key) =? 1).
    + destruct (upper key) as [|c [|d r]]; intro H; try discriminate H;
        injection H as <-; tauto.
    + destruct (dict_get str_eqb named (lower key)); intro H; [discriminate H|].
      injection H as <-. tauto.
Qed.

Lemma last_key_some parts : forall k, last_key parts (Some k) <> None.
Proof.
  unfold last_key.
  induction parts as [|p parts IH]; intro k; cbn [fold_left]; [discriminate|].
  destruct (modifier_of p); apply IH.
Qed.

Lemma last_key_none parts :
  last_key parts None = None <-> forallb names_modifier parts = true.
Proof.
  induction parts as [|p parts IH]; [cbn; tauto|].
  unfold last_key in *. cbn [fold_left forallb]. unfold names_modifier at 1.
  destruct (modifier_of p); cbn [andb]; [exact IH|].
  split; [intro H; now destruct (last_key_some parts p) | discriminate].
Qed.

(** X1: the text is refused as empty exactly when it consists of white
    space only (the empty text included). *)
Theorem parse_empty_iff_blank (s : str) :
  parse_hotkey_string s = Raise EmptyHotkey <-> forallb isspace s = true.
Proof.
  rewrite parse_unfold. destruct (forallb isspace s); [tauto|].
  split; [|discriminate].
  destruct (last_key (parts_of s) None) as [key|]; [|discriminate].
  destruct (key_to_vk key) as [vk|e] eqn:K; [discriminate|].
  intro H. injection H as ->.
  apply key_to_vk_raises in K as [K|[K|[K|K]]]; discriminate K.
Qed.

(** X2: the text is refused for want of a key exactly when it is not
    blank and every part between its separators is a modifier name (a
    text of separators only has no part at all). *)
Theorem parse_no_key_iff_only_modifiers (s : str) :
  parse_hotkey_string s = Raise NoKeySpecified
  <-> forallb isspace s = false /\ forallb names_modifier (parts_of s) = true.
Proof.
  rewrite parse_unfold. destruct (forallb isspace s).
  { split; [discriminate | intros [H _]; discriminate H]. }
  rewrite <- last_key_none.
  destruct (last_key (parts_of s) None) as [key|].
  - split; [|intros [_ H]; discriminate H].
    destruct (key_to_vk key) as [vk|e] eqn:K; [discriminate|].
    intro H. injection H as ->.
    apply key_to_vk_raises in K as [K|[K|[K|K]]]; discriminate K.
  - tauto.
Qed.

Lemma in_tuple_In s names : in_tuple s names = true -> In s names.
Proof.
  unfold in_tuple. rewrite existsb_exists. intros (x & Hx & E).
  apply str_eqb_eq in E. now subst.
Qed.

(** The five outcomes of the modifier tests on a part. *)
Lemma modifier_of_cases p :
  let pp := lower p in
  let c := in_tuple pp [lit "ctrl"; lit "control"] in
  let a := in_tuple pp [lit "alt"] in
  let sh := in_tuple pp [lit "shift"] in
  let w := in_tuple pp [lit "win"; lit "windows"] in
  (modifier_of p = Some MOD_CONTROL /\ c = true /\ a = false /\ sh = false /\ w = false)
  \/ (modifier_of p = Some MOD_ALT /\ c = false /\ a = true /\ sh = false /\ w = false)
  \/ (modifier_of p = Some MOD_SHIFT /\ c = false /\ a = false /\ sh = true /\ w = false)
  \/ (modifier_of p = Some MOD_WIN /\ c = false /\ a = false /\ sh = false /\ w = true)
  \/ (modifier_of p = None /\ c = false /\ a = false /\ sh = false /\ w = false).
Proof.
  unfold modifier_of. cbv zeta. generalize (lower p) as pp. intro pp.
  destruct (in_tuple pp [lit "ctrl"; lit "control"]) eqn:C.
  { left. apply in_tuple_In in C as [<-|[<-|[]]]; repeat split. }
  destruct (in_tuple pp [lit "alt"]) eqn:A.
  { right; left. apply in_tuple_In in A as [<-|[]]; repeat split. }
  destruct (in_tuple pp [lit "shift"]) eqn:S.
  { right; right; left. apply in_tuple_In in S as [<-|[]]; repeat split. }
  destruct (in_tuple pp [lit "win"; lit "windows"]) eqn:W.
  { right; right; right; left. repeat split. }
  right; right; right; right. repeat split.
Qed.

Lemma lor_bits_table :
  forallb (fun m =>
    forallb (fun x =>
      (0 <=? Z.lor m x) && (Z.lor m x <=? 15)
      && forallb (fun b => Bool.eqb (has_bit (Z.lor m x) b) (has_bit m b || (x =? b)))
                 [1; 2; 4; 8])
      [1; 2; 4; 8])
    (zseq 0 16) = true.
Proof. vm_compute. reflexivity. Qed.

Lemma lor_bits m x b :
  0 <= m <= 15 -> In x [1; 2; 4; 8] -> In b [1; 2; 4; 8] ->
  0 <= Z.lor m x <= 15 /\ has_bit (Z.lor m x) b = (has_bit m b || (x =? b)).
Proof.
  intros Hm Hx Hb.
  pose proof (forallb_zseq _ _ _ lor_bits_table m ltac:(simpl; lia)) as T.
  cbv beta in T. rewrite forallb_forall in T. specialize (T x Hx).
  apply andb_true_iff in T as [T1 T2]. apply andb_true_iff in T1 as [T0 T1].
  rewrite forallb_forall in T2. specialize (T2 b Hb). apply Bool.eqb_prop in T2.
  split; [lia | exact T2].
Qed.

Lemma mods_of_bits parts : forall m,
  0 <= m <= 15 ->
  0 <= mods_of parts m <= 15
  /\ has_bit (mods_of parts m) MOD_CONTROL
     = (has_bit m MOD_CONTROL || has_modifier [lit "ctrl"; lit "control"] parts)
  /\ has_bit (mods_of parts m) MOD_ALT
     = (has_bit m MOD_ALT || has_modifier [lit "alt"] parts)
  /\ has_bit (mods_of parts m) MOD_SHIFT
     = (has_bit m MOD_SHIFT || has_modifier [lit "shift"] parts)
  /\ has_bit (mods_of parts m) MOD_WIN
     = (has_bit m MOD_WIN || has_modifier [lit "win"; lit "windows"] parts).
Proof.
  unfold mods_of, has_modifier.
  induction parts as [|p parts IH]; intros m Hm; cbn [fold_left existsb].
  - rewrite !orb_false_r. repeat split; lia.
  - pose proof (modifier_of_cases p) as Cs. cbv zeta in Cs.
    assert (L : forall x, In x [1; 2; 4; 8] ->
              0 <= Z.lor m x <= 15
              /\ has_bit (Z.lor m x) MOD_CONTROL = (has_bit m MOD_CONTROL || (x =? MOD_CONTROL))
              /\ has_bit (Z.lor m x) MOD_ALT = (has_bit m MOD_ALT || (x =? MOD_ALT))
              /\ has_bit (Z.lor m x) MOD_SHIFT = (has_bit m MOD_SHIFT || (x =? MOD_SHIFT))
              /\ has_bit (Z.lor m x) MOD_WIN = (has_bit m MOD_WIN || (x =? MOD_WIN))).
    { intros x Hx. unfold MOD_CONTROL, MOD_ALT, MOD_SHIFT, MOD_WIN.
      split; [apply (lor_bits m x 1 Hm Hx); simpl; tauto|].
      split; [apply (lor_bits m x 2 Hm Hx); simpl; tauto|].
      split; [apply (lor_bits m x 1 Hm Hx); simpl; tauto|].
      split; [apply (lor_bits m x 4 Hm Hx); simpl; tauto|].
      apply (lor_bits m x 8 Hm Hx); simpl; tauto. }
    destruct Cs as [(E & C & A & S & W) | [(E & C & A & S & W) | [(E & C & A & S & W)
                   | [(E & C & A & S & W) | (E & C & A & S & W)]]]];
      rewrite E, C, A, S, W; cbn [orb].
    1: destruct (L MOD_CONTROL) as (B & E1 & E2 & E3 & E4); [simpl; tauto|].
    2: destruct (L MOD_ALT) as (B & E1 & E2 & E3 & E4); [simpl; tauto|].
    3: destruct (L MOD_SHIFT) as (B & E1 & E2 & E3 & E4); [simpl; tauto|].
    4: destruct (L MOD_WIN) as (B & E1 & E2 & E3 & E4); [simpl; tauto|].
    1-4: destruct (IH _ B) as (I0 & I1 & I2 & I3 & I4);
         rewrite I1, I2, I3, I4, E1, E2, E3, E4;
         repeat split; try lia;
         cbn [Z.eqb MOD_CONTROL MOD_ALT MOD_SHIFT MOD_WIN Pos.eqb];
         rewrite ?orb_false_r, ?orb_true_r; reflexivity.
    exact (IH m Hm).
Qed.

(** X3: the mask of a parsed text lies in 0..15, and each of its four bits
    is set exactly when one of the parts is, in any letter case, a name of
    that modifier; the order and the number of the modifiers do not
    matter. *)
Theorem parse_mask_bits (s : str) (mods vk : Z) :
  parse_hotkey_string s = Ok (mods, vk) ->
  0 <= mods <= 15
  /\ has_bit mods MOD_CONTROL = has_modifier [lit "ctrl"; lit "control"] (parts_of s)
  /\ has_bit mods MOD_ALT = has_modifier [lit "alt"] (parts_of s)
  /\ has_bit mods MOD_SHIFT = has_modifier [lit "shift"] (parts_of s)
  /\ has_bit mods MOD_WIN = has_modifier [lit "win"; lit "windows"] (parts_of s).
Proof.
  rewrite parse_unfold. destruct (forallb isspace s); [discriminate|].
  destruct (last_key (parts_of s) None) as [key|]; [|discriminate].
  destruct (key_to_vk key) as [v|e]; [|discriminate].
  intro H. injection H as <- _.
  exact (mods_of_bits (parts_of s) 0 ltac:(lia)).
Qed.

Lemma parse_mask_bits_witness :
  0 <= 10 <= 15
  /\ has_bit 10 MOD_CONTROL
     = has_modifier [lit "ctrl"; lit "control"] (parts_of (lit "win + CONTROL+Win+k"))
  /\ has_bit 10 MOD_ALT = has_modifier [lit "alt"] (parts_of (lit "win + CONTROL+Win+k"))
  /\ has_bit 10 MOD_SHIFT = has_modifier [lit "shift"] (parts_of (lit "win + CONTROL+Win+k"))
  /\ has_bit 10 MOD_WIN
     = has_modifier [lit "win"; lit "windows"] (parts_of (lit "win + CONTROL+Win+k")).
Proof.
  apply (parse_mask_bits (lit "win + CONTROL+Win+k") 10 0x4B). reflexivity.
Defined.

(** No character that [str.isdigit] accepts is white space or the
    separator. *)
Lemma digit_table :
  forallb (fun r =>
             forallb (fun c => negb (isspace c) && negb (c =? 0x2B))
                     (zseq (fst r) (Z.to_nat (snd r - fst r + 1))))
          digit_ranges = true.
Proof. vm_compute. reflexivity. Qed.

Lemma isdigit_char_plain c :
  isdigit_char c = true -> isspace c = false /\ (c =? 0x2B) = false.
Proof.
  unfold isdigit_char. rewrite existsb_exists. intros (r & Hin & Hr).
  pose proof digit_table as T. rewrite forallb_forall in T. specialize (T r Hin).
  unfold in_range, between in Hr. apply andb_true_iff in Hr as [L U].
  apply Z.leb_le in L, U.
  pose proof (forallb_zseq _ _ _ T c ltac:(rewrite Z2Nat.id; lia)) as P.
  cbv beta in P. apply andb_true_iff in P as [P1 P2].
  apply negb_true_iff in P1, P2. now split.
Qed.

Lemma digits_not_space ds :
  forallb isdigit_char ds = true -> forallb (fun c => negb (isspace c)) ds = true.
Proof.
  induction ds as [|c ds IH]; intro H; [reflexivity|].
  cbn [forallb] in *. apply andb_true_iff in H as [H1 H2].
  rewrite (IH H2), andb_true_r.
  now rewrite (proj1 (isdigit_char_plain c H1)).
Qed.

Lemma digits_no_plus ds :
  forallb isdigit_char ds = true -> mem 0x2B ds = false.
Proof.
  induction ds as [|c ds IH]; intro H; [reflexivity|].
  cbn [forallb] in H. apply andb_true_iff in H as [H1 H2].
  unfold mem in *. cbn [existsb]. rewrite (IH H2), orb_false_r.
  rewrite Z.eqb_sym. exact (proj2 (isdigit_char_plain c H1)).
Qed.

Lemma rstrip_no_space s :
  forallb (fun c => negb (isspace c)) s = true -> rstrip s = s.
Proof.
  induction s as [|c s IH]; intro H; [reflexivity|].
  cbn [forallb] in H. apply andb_true_iff in H as [H1 H2].
  apply negb_true_iff in H1.
  rewrite rstrip_cons. cbn [forallb]. rewrite H1. cbn [andb]. now rewrite IH.
Qed.

(** X4: a text made of the letter F, in either case, and of characters
    that [str.isdigit] accepts is read as a function key: when the
    characters are decimal digits, at most 4300 of them, it parses as the
    function key of their number if the number is 1..24 (leading zeros
    allowed) and is refused as an invalid function key otherwise; when one
    of them is not a decimal digit, or there are more than 4300, the
    error is that of [int]. *)
Theorem parse_function_key (f : Z) (ds : str) :
  f = 0x46 \/ f = 0x66 -> isdigit ds = true ->
  parse_hotkey_string (f :: ds)
  = match int ds with
    | Some n => if (1 <=? n) && (n <=? 24) then Ok (0, 0x6F + n)
                else Raise InvalidFunctionKey
    | None => Raise IntValueError
    end.
Proof.
  intros Hf Hd.
  assert (D : forallb isdigit_char ds = true).
  { destruct ds; [discriminate Hd | exact Hd]. }
  assert (Sf : isspace f = false) by (destruct Hf; subst f; reflexivity).
  assert (Lf : lower_char f = 0x66) by (destruct Hf; subst f; reflexivity).
  assert (Uf : upper_char f = [0x46]) by (destruct Hf; subst f; reflexivity).
  assert (P : parts_of (f :: ds) = [f :: ds]).
  { unfold parts_of. rewrite split_no_sep.
    2:{ unfold mem. cbn [existsb]. fold (mem 0x2B ds). rewrite (digits_no_plus ds D).
        destruct Hf; subst f; reflexivity. }
    cbn [map]. unfold strip. cbn [lstrip]. rewrite Sf.
    rewrite rstrip_no_space; [reflexivity|].
    cbn [forallb]. rewrite Sf. exact (digits_not_space ds D). }
  assert (M : modifier_of (f :: ds) = None).
  { unfold modifier_of. cbn [lower map]. rewrite Lf. reflexivity. }
  rewrite parse_unfold, P. cbn [forallb]. rewrite Sf. cbn [andb].
  unfold last_key, mods_of. cbn [fold_left]. rewrite M.
  unfold key_to_vk. cbn [tl upper flat_map]. rewrite Uf.
  assert (S : startswith ([0x46] ++ flat_map upper_char ds) (lit "F") = true) by reflexivity.
  rewrite S, Hd. cbn [andb].
  destruct (int ds) as [n|]; [|reflexivity].
  destruct ((1 <=? n) && (n <=? 24)); [|reflexivity].
  do 2 f_equal. lia.
Qed.

Lemma parse_function_key_witness :
  parse_hotkey_string (lit "f012") = Ok (0, 0x7B)
  /\ parse_hotkey_string (lit "F25") = Raise InvalidFunctionKey
  /\ parse_hotkey_string [0x46; 0xB2] = Raise IntValueError
  /\ parse_hotkey_string [0x46; 0x661; 0x662] = Ok (0, 0x7B).
Proof.
  split; [|split; [|split]].
  - apply (parse_function_key 0x66 (lit "012")); [right; reflexivity | reflexivity].
  - apply (parse_function_key 0x46 (lit "25")); [left; reflexivity | reflexivity].
  - apply (parse_function_key 0x46 [0xB2]); [left; reflexivity | reflexivity].
  - apply (parse_function_key 0x46 [0x661; 0x662]); [left; reflexivity | reflexivity].
Defined.

(* ===================================================================== *)
(** ** The codec: texts that were formatted *)

Lemma reformat_table :
  forallb (fun mods => forallb (reformat_agrees mods) (zseq 1 254)) (zseq 0 16) = true.
Proof. vm_compute. reflexivity. Qed.

(** X5: whenever the text written for a binding (modifiers over the four
    bits, key code in VK_MIN..VK_MAX) parses at all, it parses to the same
    modifiers and to a key that is written as the same text; so writing
    what was parsed changes nothing, also for the keys that are not read
    back as themselves. *)
Theorem parse_of_formatted_formats_the_same (mods vk m v : Z) :
  0 <= mods <= 15 -> VK_MIN <= vk <= VK_MAX ->
  parse_hotkey_string (hotkey_to_string mods vk) = Ok (m, v) ->
  m = mods /\ hotkey_to_string m v = hotkey_to_string mods vk.
Proof.
  intros Hm Hv E. unfold VK_MIN, VK_MAX in Hv.
  assert (A : reformat_agrees mods vk = true).
  { apply (forallb2_zseq reformat_agrees 0 16 1 254 reformat_table); lia. }
  unfold reformat_agrees in A. rewrite E in A.
  apply andb_true_iff in A as [A1 A2].
  apply Z.eqb_eq in A1. apply str_eqb_eq in A2. now split.
Qed.

Lemma parse_of_formatted_formats_the_same_witness :
  3 = 3 /\ hotkey_to_string 3 0x41 = hotkey_to_string 3 0x61.
Proof.
  apply (parse_of_formatted_formats_the_same 3 0x61 3 0x41);
    [lia | unfold VK_MIN, VK_MAX; lia | reflexivity].
Defined.

Lemma flag_low_bits mods m name :
  In m [MOD_CONTROL; MOD_ALT; MOD_SHIFT; MOD_WIN] ->
  flag (Z.land mods 15) m name = flag mods m name.
Proof.
  intro H. unfold flag. rewrite <- Z.land_assoc.
  replace (Z.land 15 m) with m; [reflexivity|].
  destruct H as [<-|[<-|[<-|[<-|[]]]]]; reflexivity.
Qed.

(** X6: the text of a binding depends on the four modifier bits of the
    mask only: any other bit of [mods] (a negative number included) is
    not written. *)
Theorem format_reads_four_bits (mods vk : Z) :
  hotkey_to_string mods vk = hotkey_to_string (Z.land mods 15) vk.
Proof.
  unfold hotkey_to_string. cbv zeta.
  rewrite !flag_low_bits by (simpl; tauto). reflexivity.
Qed.

(* ===================================================================== *)
(** ** The codec: letter case *)

Ltac zcases :=
  repeat match goal with
         | |- context [?a <=? ?b] => destruct (Z.leb_spec a b); try lia
         | |- context [?a =? ?b] => destruct (Z.eqb_spec a b); try lia
         end.

Lemma lower_char_cases c :
  lower_char c = c
  \/ ((0x41 <= c <= 0x5A \/ 0xC0 <= c <= 0xD6 \/ 0xD8 <= c <= 0xDE)
      /\ lower_char c = c + 32).
Proof.
  unfold lower_char.
  destruct (between 0x41 0x5A c || between 0xC0 0xD6 c || between 0xD8 0xDE c) eqn:E;
    [right | now left].
  split; [|reflexivity]. unfold between in E.
  repeat (apply orb_true_iff in E as [E|E]);
    apply andb_true_iff in E as [L U]; apply Z.leb_le in L, U; lia.
Qed.

Lemma lower_char_space c : isspace (lower_char c) = isspace c.
Proof.
  destruct (lower_char_cases c) as [E | [R E]]; rewrite ?E; [reflexivity|].
  unfold isspace, between, mem. cbn [existsb]. zcases; reflexivity.
Qed.

Lemma lower_char_plus c : (lower_char c =? 0x2B) = (c =? 0x2B).
Proof.
  destruct (lower_char_cases c) as [E | [R E]]; rewrite ?E; [reflexivity|]. zcases; reflexivity.
Qed.

Lemma lower_char_idem c : lower_char (lower_char c) = lower_char c.
Proof.
  destruct (lower_char_cases c) as [E | [R E]]; rewrite ?E; [reflexivity|].
  unfold lower_char, between. zcases; reflexivity.
Qed.

(** The letters that [lower] changes, and what it changes them to, are no
    digits. *)
Lemma lower_digit_table :
  forallb (fun c =>
             Bool.eqb (isdigit_char (lower_char c)) (isdigit_char c)
             && match decimal_value (lower_char c), decimal_value c with
                | None, None => true
                | Some x, Some y => x =? y
                | _, _ => false
                end)
          (zseq 0x41 158) = true.
Proof. vm_compute. reflexivity. Qed.

Lemma lower_char_digits c :
  isdigit_char (lower_char c) = isdigit_char c
  /\ decimal_value (lower_char c) = decimal_value c.
Proof.
  destruct (lower_char_cases c) as [E | [R _]]; [now rewrite E|].
  pose proof (forallb_zseq _ _ _ lower_digit_table c ltac:(simpl; lia)) as T.
  cbv beta in T. apply andb_true_iff in T as [T1 T2].
  apply Bool.eqb_prop in T1. split; [exact T1|].
  destruct (decimal_value (lower_char c)) as [x|], (decimal_value c) as [y|];
    try discriminate T2; [|reflexivity].
  apply Z.eqb_eq in T2. now subst.
Qed.

Lemma lower_char_digit c : isdigit_char (lower_char c) = isdigit_char c.
Proof. apply lower_char_digits. Qed.

Lemma upper_lower_char c : upper_char (lower_char c) = upper_char c.
Proof.
  destruct (lower_char_cases c) as [E | [R E]]; rewrite ?E; [reflexivity|].
  unfold upper_char, between. zcases; cbn [andb orb]; f_equal; lia.
Qed.

Lemma lower_idem s : lower (lower s) = lower s.
Proof. unfold lower. rewrite map_map. apply map_ext, lower_char_idem. Qed.

Lemma upper_lower s : upper (lower s) = upper s.
Proof.
  unfold upper, lower. induction s as [|c s IH]; [reflexivity|].
  cbn [map flat_map]. now rewrite upper_lower_char, IH.
Qed.

Lemma forallb_lower (f : Z -> bool) s :
  (forall c, f (lower_char c) = f c) -> forallb f (lower s) = forallb f s.
Proof.
  intro H. unfold lower. induction s as [|c s IH]; [reflexivity|].
  cbn [map forallb]. now rewrite H, IH.
Qed.

Lemma lstrip_lower s : lstrip (lower s) = lower (lstrip s).
Proof.
  unfold lower. induction s as [|c s IH]; [reflexivity|].
  cbn [map lstrip]. rewrite lower_char_space. destruct (isspace c); [exact IH | reflexivity].
Qed.

Lemma rstrip_lower s : rstrip (lower s) = lower (rstrip s).
Proof.
  unfold rstrip. unfold lower at 1. rewrite <- map_rev. fold (lower (rev s)).
  rewrite lstrip_lower. unfold lower. now rewrite map_rev.
Qed.

Lemma strip_lower s : strip (lower s) = lower (strip s).
Proof. unfold strip. now rewrite lstrip_lower, rstrip_lower. Qed.

Lemma split_lower s : split 0x2B (lower s) = map lower (split 0x2B s).
Proof.
  induction s as [|c s IH]; [reflexivity|].
  change (lower (c :: s)) with (lower_char c :: lower s).
  cbn [split]. rewrite lower_char_plus, IH.
  destruct (c =? 0x2B); [reflexivity|].
  destruct (split 0x2B s); reflexivity.
Qed.

Lemma parts_of_lower s : parts_of (lower s) = map lower (parts_of s).
Proof.
  unfold parts_of. rewrite split_lower, map_map.
  induction (split 0x2B s) as [|p ps IH]; [reflexivity|].
  cbn [map filter]. rewrite strip_lower, IH.
  destruct (strip p); reflexivity.
Qed.

Lemma modifier_of_lower p : modifier_of (lower p) = modifier_of p.
Proof. unfold modifier_of. now rewrite lower_idem. Qed.

Lemma mods_of_lower parts : forall m, mods_of (map lower parts) m = mods_of parts m.
Proof.
  unfold mods_of. induction parts as [|p parts IH]; intro m; [reflexivity|].
  cbn [map fold_left]. rewrite modifier_of_lower. apply IH.
Qed.

Lemma last_key_lower parts : forall k,
  last_key (map lower parts) (option_map lower k) = option_map lower (last_key parts k).
Proof.
  unfold last_key. induction parts as [|p parts IH]; intro k; [reflexivity|].
  cbn [map fold_left]. rewrite modifier_of_lower.
  destruct (modifier_of p); [apply IH | apply (IH (Some p))].
Qed.

Lemma isdigit_lower s : isdigit (lower s) = isdigit s.
Proof.
  unfold isdigit. rewrite (forallb_lower isdigit_char s lower_char_digit).
  destruct s; reflexivity.
Qed.

Lemma int_lower s : int (lower s) = int s.
Proof.
  unfold int.
  replace (List.length (lower s)) with (List.length s)
    by (unfold lower; now rewrite length_map).
  assert (F : forall acc, fold_left int_step (lower s) acc = fold_left int_step s acc).
  { unfold lower. induction s as [|c s IH]; intro acc; [reflexivity|].
    cbn [map fold_left]. rewrite IH. f_equal. unfold int_step.
    now rewrite (proj2 (lower_char_digits c)). }
  rewrite F. destruct s; reflexivity.
Qed.

Lemma key_to_vk_lower key vk : key_to_vk key = Ok vk -> key_to_vk (lower key) = Ok vk.
Proof.
  unfold key_to_vk. rewrite upper_lower, lower_idem.
  replace (tl (lower key)) with (lower (tl key)) by (destruct key; reflexivity).
  rewrite isdigit_lower, int_lower.
  replace (List.length (lower key)) with (List.length key)
    by (unfold lower; now rewrite length_map).
  destruct (startswith (upper key) (lit "F") && isdigit (tl key)); [tauto|].
  destruct (Z.of_nat (List.length key) =? 1); [tauto|].
  destruct (dict_get str_eqb named (lower key)); [tauto | discriminate].
Qed.

(** X7: parsing does not depend on the letter case of the text: a text of
    code points below 256 that parses to a binding parses to the same
    binding when written in lower case. *)
Theorem parse_ignores_letter_case (s : str) (r : Z * Z) :
  forallb (between 0 255) s = true ->
  parse_hotkey_string s = Ok r ->
  parse_hotkey_string (lower s) = Ok r.
Proof.
  intros _. rewrite !parse_unfold.
  rewrite (forallb_lower isspace s lower_char_space), parts_of_lower, mods_of_lower.
  destruct (forallb isspace s); [discriminate|].
  change (last_key (map lower (parts_of s)) None)
    with (last_key (map lower (parts_of s)) (option_map lower None)).
  rewrite (last_key_lower (parts_of s) None).
  destruct (last_key (parts_of s) None) as [key|]; [|discriminate].
  cbn [option_map].
  destruct (key_to_vk key) as [vk|e] eqn:K; [|discriminate].
  now rewrite (key_to_vk_lower key vk K).
Qed.

Lemma parse_ignores_letter_case_witness :
  parse_hotkey_string (lower (lit "CTRL+Shift+PageUp")) = Ok (6, 0x21).
Proof.
  apply (parse_ignores_letter_case (lit "CTRL+Shift+PageUp") (6, 0x21)); reflexivity.
Defined.

(* ===================================================================== *)
(** ** The hotkey thread: what a history leaves behind *)

Lemma action_id_known a i :
  dict_get str_eqb ACTION_IDS a = Some i -> 1 <= i <= 4.
Proof.
  unfold ACTION_IDS. cbn [dict_get].
  repeat match goal with |- context [str_eqb a ?x] => destruct (str_eqb a x) end;
    intro H; try discriminate H; injection H as <-; lia.
Qed.

Lemma action_id_injective a b i :
  dict_get str_eqb ACTION_IDS a = Some i -> dict_get str_eqb ACTION_IDS b = Some i -> a = b.
Proof.
  unfold ACTION_IDS. cbn [dict_get].
  destruct (str_eqb a (lit "create")) eqn:A1; [|destruct (str_eqb a (lit "toggle")) eqn:A2;
    [|destruct (str_eqb a (lit "delete")) eqn:A3;
      [|destruct (str_eqb a (lit "suspend_enh")) eqn:A4]]];
  (destruct (str_eqb b (lit "create")) eqn:B1; [|destruct (str_eqb b (lit "toggle")) eqn:B2;
    [|destruct (str_eqb b (lit "delete")) eqn:B3;
      [|destruct (str_eqb b (lit "suspend_enh")) eqn:B4]]]);
  intros Ha Hb; try discriminate Ha; try discriminate Hb;
    injection Ha as <-; try discriminate Hb;
    repeat match goal with H : str_eqb _ _ = true |- _ => apply str_eqb_eq in H end;
    congruence.
Qed.

Section ThreadHistory.

Variable accepts : table -> Z -> Z -> Z -> bool.

Arguments dict_get : simpl never.
Arguments parse_value : simpl never.

(** The outcome of the register branch on a thread whose table is listed. *)
Lemma do_register_outcome hm q th :
  consistent th ->
  (exists hs, Forall2 binding_of hm hs
              /\ do_register accepts hm q th
                 = mkThread (map fst hs) hs (event_queue th)
                            (put q RespOk (responses th)) (running th))
  \/ (exists action why,
        do_register accepts hm q th
        = mkThread [] [] (event_queue th)
                   (put q (RespFailed action why) (responses th)) (running th)).
Proof.
  intro C. unfold do_register. rewrite (unregister_all_consistent _ C).
  destruct (register_loop accepts hm [] []) as [[ids t1] failed] eqn:E.
  destruct failed as [[action why]|].
  - right. exists action, why. f_equal.
    apply unregister_all_listed.
    apply (register_loop_listed accepts _ _ _ _ _ _ E). intros e [].
  - left. destruct (register_loop_ok accepts _ _ _ _ _ E) as (hs & F & -> & ->).
    exists hs. split; [exact F | reflexivity].
Qed.

Lemma binding_ids_known hm hs :
  Forall2 binding_of hm hs -> forall i, In i (map fst hs) -> 1 <= i <= 4.
Proof.
  induction 1 as [|e h hm hs [B _] F IH]; intros i Hi; [destruct Hi|].
  destruct Hi as [<-|Hi]; [exact (action_id_known _ _ B) | now apply IH].
Qed.

Lemma binding_ids_distinct hm hs :
  Forall2 binding_of hm hs -> NoDup (map fst hm) -> NoDup (map fst hs).
Proof.
  induction 1 as [|e h hm hs [B _] F IH]; intro N; [constructor|].
  cbn [map] in *. inversion N as [|? ? Hn N']; subst. constructor; [|now apply IH].
  intro Hin. apply Hn. clear IH N N' Hn.
  induction F as [|e' h' hm hs [B' _] F IH]; [destruct Hin|].
  destruct Hin as [E|Hin]; [left | right; now apply IH].
  rewrite <- E in B. exact (action_id_injective _ _ _ B' B).
Qed.

(** What every state of the thread satisfies. *)
Lemma thread_state_invariant inputs :
  let th := hotkey_thread_func accepts inputs in
  consistent th
  /\ (forall i, In i (registered_ids th) -> 1 <= i <= 4)
  /\ (running th = true -> registered_ids th = map fst (os_hotkeys th)).
Proof.
  cbv zeta. unfold hotkey_thread_func.
  set (Inv := fun th : thread =>
                consistent th
                /\ (forall i, In i (registered_ids th) -> 1 <= i <= 4)
                /\ (running th = true -> registered_ids th = map fst (os_hotkeys th))).
  assert (Hcmd : forall c th, Inv th -> Inv (handle_command accepts c th)).
  { intros c th (C & K & S). destruct c as [hm q | q | ]; cbn [handle_command].
    - destruct (do_register_outcome hm q th C) as [(hs & F & ->) | (a & w & ->)];
        (split; [|split]); cbn [registered_ids os_hotkeys running].
      + intros e He. cbn [registered_ids os_hotkeys]. now apply in_map.
      + exact (binding_ids_known hm hs F).
      + reflexivity.
      + intros e [].
      + intros i [].
      + reflexivity.
    - unfold do_stop. rewrite (unregister_all_consistent _ C).
      (split; [|split]); cbn [registered_ids os_hotkeys running].
      + intros e [].
      + intros i [].
      + discriminate.
    - split; [|split]; assumption. }
  assert (Hdrain : forall cmds th, Inv th -> Inv (drain accepts cmds th)).
  { induction cmds as [|c cmds IH]; intros th I; cbn [drain]; [exact I|].
    destruct (running th); [|exact I]. apply IH, Hcmd, I. }
  assert (Hgm : forall gm th, running th = true -> Inv th -> Inv (after_getmessage gm th)).
  { intros gm th R (C & K & S).
    destruct gm; (split; [|split]);
      cbn [after_getmessage registered_ids os_hotkeys running];
      try exact C; try exact K; try discriminate.
    - intros _. exact (S R).
    - intros _. exact (S R).
    - rewrite (unregister_all_consistent _ C). intros e []. }
  assert (Hit : forall inp th, Inv th -> Inv (iteration accepts th inp)).
  { intros inp th I. unfold iteration.
    destruct (running th); [|exact I].
    pose proof (Hdrain (fst inp) th I) as D.
    destruct (running (drain accepts (fst inp) th)) eqn:R; [|exact D]. now apply Hgm. }
  assert (G : forall th, Inv th -> Inv (fold_left (iteration accepts) inputs th)).
  { induction inputs as [|inp rest IH]; intros th I; cbn [fold_left]; [exact I|].
    apply IH, Hit, I. }
  apply G. split; [|split]; cbn; try reflexivity; intros ? [].
Qed.

End ThreadHistory.

Section ThreadTraces.

Variable accepts : table -> Z -> Z -> Z -> bool.

Lemma handle_command_event_queue c th :
  event_queue (handle_command accepts c th) = event_queue th.
Proof.
  destruct c as [hm q | q | ]; cbn [handle_command]; [|reflexivity|reflexivity].
  unfold do_register.
  destruct (register_loop accepts hm [] _) as [[ids t1] [[a w]|]]; reflexivity.
Qed.

Lemma drain_event_queue cmds : forall th,
  event_queue (drain accepts cmds th) = event_queue th.
Proof.
  induction cmds as [|c cmds IH]; intro th; cbn [drain]; [reflexivity|].
  destruct (running th); [|reflexivity].
  now rewrite IH, handle_command_event_queue.
Qed.

Lemma iteration_running th inp :
  running (iteration accepts th inp) = true ->
  running th = true
  /\ event_queue (iteration accepts th inp) = event_queue th ++ events_of (snd inp).
Proof.
  unfold iteration. destruct (running th) eqn:R; [|congruence].
  destruct (running (drain accepts (fst inp) th)) eqn:D; [|congruence].
  destruct (snd inp); cbn [after_getmessage running event_queue events_of];
    intro H; try discriminate H; split; try reflexivity;
    rewrite drain_event_queue.
  - reflexivity.
  - destruct (message =? WM_HOTKEY); [reflexivity | now rewrite app_nil_r].
Qed.

Lemma running_trace inputs : forall th,
  running (fold_left (iteration accepts) inputs th) = true ->
  running th = true
  /\ event_queue (fold_left (iteration accepts) inputs th)
     = event_queue th ++ flat_map (fun inp => events_of (snd inp)) inputs.
Proof.
  induction inputs as [|inp rest IH]; intros th H; cbn [fold_left flat_map] in *.
  - split; [exact H | now rewrite app_nil_r].
  - destruct (IH _ H) as [R E].
    destruct (iteration_running th inp R) as [R' E'].
    split; [exact R'|]. now rewrite E, E', <- app_assoc.
Qed.

Lemma put_slots q r rs :
  map fst (put q r rs)
  = map fst rs ++ match q with Some n => [n] | None => [] end.
Proof.
  destruct q; cbn [put]; [now rewrite map_app | now rewrite app_nil_r].
Qed.

Lemma handle_command_slots c th :
  map fst (responses (handle_command accepts c th))
  = map fst (responses th) ++ slot_of c.
Proof.
  destruct c as [hm q | q | ]; cbn [handle_command slot_of].
  - unfold do_register.
    destruct (register_loop accepts hm [] _) as [[ids t1] [[a w]|]];
      cbn [responses]; rewrite put_slots; destruct q; reflexivity.
  - unfold do_stop. cbn [responses]. rewrite put_slots. destruct q; reflexivity.
  - now rewrite app_nil_r.
Qed.

Lemma handle_command_running c th :
  running (handle_command accepts c th)
  = match c with Stop _ => false | _ => running th end.
Proof.
  destruct c as [hm q | q | ]; cbn [handle_command]; [|reflexivity|reflexivity].
  unfold do_register.
  destruct (register_loop accepts hm [] _) as [[ids t1] [[a w]|]]; reflexivity.
Qed.

Lemma drain_slots cmds : forall th,
  running th = true ->
  map fst (responses (drain accepts cmds th))
  = map fst (responses th) ++ flat_map slot_of (upto_stop cmds).
Proof.
  induction cmds as [|c cmds IH]; intros th R; cbn [drain upto_stop flat_map].
  - now rewrite app_nil_r.
  - rewrite R.
    pose proof (handle_command_slots c th) as S.
    pose proof (handle_command_running c th) as N.
    destruct c as [hm q | q | ].
    + cbn [flat_map]. rewrite IH by (now rewrite N). now rewrite S, <- app_assoc.
    + rewrite drain_stopped by exact N. cbn [flat_map]. now rewrite S, app_nil_r.
    + cbn [flat_map]. rewrite IH by (now rewrite N). now rewrite S, <- app_assoc.
Qed.

End ThreadTraces.

(** X8: what a Register command leaves registered, and what it answers,
    depends on its map alone (and on what the system accepts), not on
    what the thread went through before: the map replaces whatever was
    registered. *)
Theorem register_outcome_ignores_history
  (accepts : table -> Z -> Z -> Z -> bool)
  (inputs1 inputs2 : list (list command * getmessage)) (hm : hotmap) (q : nat) :
  let th1 := hotkey_thread_func accepts inputs1 in
  let th2 := hotkey_thread_func accepts inputs2 in
  let a := handle_command accepts (Register hm (Some q)) th1 in
  let b := handle_command accepts (Register hm (Some q)) th2 in
  registered_ids a = registered_ids b
  /\ os_hotkeys a = os_hotkeys b
  /\ exists r, responses a = responses th1 ++ [(q, r)]
               /\ responses b = responses th2 ++ [(q, r)].
Proof.
  cbv zeta. cbn [handle_command]. unfold do_register.
  rewrite !(unregister_all_consistent _ (hotkey_thread_consistent accepts _)).
  destruct (register_loop accepts hm [] []) as [[ids t1] [[action why]|]];
    cbn [registered_ids os_hotkeys responses put];
    (split; [reflexivity | split; [reflexivity|]]); eexists; split; reflexivity.
Qed.

(** X9: while the thread is in its loop, [registered_ids] lists exactly
    the ids of the hotkeys the system holds for the thread, in the same
    order, and every id in it is one of the four action ids. *)
Theorem registered_ids_mirror_the_system
  (accepts : table -> Z -> Z -> Z -> bool)
  (inputs : list (list command * getmessage)) :
  let th := hotkey_thread_func accepts inputs in
  running th = true ->
  registered_ids th = map fst (os_hotkeys th)
  /\ forall i, In i (registered_ids th) -> 1 <= i <= 4.
Proof.
  cbv zeta. intro R.
  destruct (thread_state_invariant accepts inputs) as (_ & K & S).
  split; [exact (S R) | exact K].
Qed.

Lemma registered_ids_mirror_the_system_witness :
  let th := hotkey_thread_func accept_unowned
              [ ([Register (as_hotmap DEFAULT_HOTKEYS) (Some 0%nat)], GM_error);
                ([Register [(lit "toggle", PStr (lit "F9"))] None], GM_message WM_HOTKEY 2) ] in
  registered_ids th = map fst (os_hotkeys th)
  /\ forall i, In i (registered_ids th) -> 1 <= i <= 4.
Proof.
  apply (registered_ids_mirror_the_system accept_unowned
           [ ([Register (as_hotmap DEFAULT_HOTKEYS) (Some 0%nat)], GM_error);
             ([Register [(lit "toggle", PStr (lit "F9"))] None], GM_message WM_HOTKEY 2) ]).
  reflexivity.
Defined.

(** X10: while the thread is in its loop, the event queue holds, in the
    order of the rounds, one Fired event for each WM_HOTKEY message (with
    its wParam) and one Fault event for each -1 of GetMessageW, and
    nothing else: no command and no other message puts an event. *)
Theorem event_queue_is_the_message_trace
  (accepts : table -> Z -> Z -> Z -> bool)
  (inputs : list (list command * getmessage)) :
  running (hotkey_thread_func accepts inputs) = true ->
  event_queue (hotkey_thread_func accepts inputs)
  = flat_map (fun inp => events_of (snd inp)) inputs.
Proof.
  intro R. unfold hotkey_thread_func in *.
  exact (proj2 (running_trace accepts inputs thread_start R)).
Qed.

Lemma event_queue_is_the_message_trace_witness :
  event_queue (hotkey_thread_func accept_unowned
                 [ ([Register (as_hotmap DEFAULT_HOTKEYS) (Some 0%nat)], GM_message WM_HOTKEY 3);
                   ([], GM_message 0x0400 7); ([Skip], GM_error);
                   ([], GM_message WM_HOTKEY 1) ])
  = [Fired 3; Fault GetMessageFailed; Fired 1].
Proof.
  apply (event_queue_is_the_message_trace accept_unowned
           [ ([Register (as_hotmap DEFAULT_HOTKEYS) (Some 0%nat)], GM_message WM_HOTKEY 3);
             ([], GM_message 0x0400 7); ([Skip], GM_error);
             ([], GM_message WM_HOTKEY 1) ]).
  reflexivity.
Defined.

(** X11: of the commands the thread finds queued, those up to the first
    Stop are each answered exactly once on their response queue, in the
    order they were queued; a command behind a Stop is never answered. *)
Theorem one_response_per_command
  (accepts : table -> Z -> Z -> Z -> bool)
  (inputs : list (list command * getmessage)) (cmds : list command) :
  let th := hotkey_thread_func accepts inputs in
  running th = true ->
  map fst (responses (drain accepts cmds th))
  = map fst (responses th) ++ flat_map slot_of (upto_stop cmds).
Proof. cbv zeta. apply drain_slots. Qed.

Lemma one_response_per_command_witness :
  let th := hotkey_thread_func accept_unowned [] in
  map fst (responses (drain accept_unowned
                        [ Register (as_hotmap DEFAULT_HOTKEYS) (Some 5%nat);
                          Register [(lit "nope", POther)] (Some 6%nat); Skip;
                          Stop (Some 7%nat); Register [] (Some 8%nat) ] th))
  = map fst (responses th) ++ [5%nat; 6%nat; 7%nat].
Proof.
  apply (one_response_per_command accept_unowned []
           [ Register (as_hotmap DEFAULT_HOTKEYS) (Some 5%nat);
             Register [(lit "nope", POther)] (Some 6%nat); Skip;
             Stop (Some 7%nat); Register [] (Some 8%nat) ]).
  reflexivity.
Defined.

(** X12: a map with distinct actions (as every dict has) never leaves an
    id registered twice. *)
Theorem registered_ids_are_distinct
  (accepts : table -> Z -> Z -> Z -> bool)
  (inputs : list (list command * getmessage)) (hm : hotmap) (q : option nat) :
  NoDup (map fst hm) ->
  NoDup (registered_ids
           (handle_command accepts (Register hm q) (hotkey_thread_func accepts inputs))).
Proof.
  intro N. cbn [handle_command].
  destruct (do_register_outcome accepts hm q _ (hotkey_thread_consistent accepts inputs))
    as [(hs & F & ->) | (a & w & ->)]; cbn [registered_ids]; [|constructor].
  exact (binding_ids_distinct hm hs F N).
Qed.

Lemma registered_ids_are_distinct_witness :
  NoDup (registered_ids
           (handle_command accept_unowned (Register (as_hotmap DEFAULT_HOTKEYS) None)
                           (hotkey_thread_func accept_unowned []))).
Proof.
  apply (registered_ids_are_distinct accept_unowned [] (as_hotmap DEFAULT_HOTKEYS) None).
  repeat constructor; cbn; intuition discriminate.
Defined.

(* ===================================================================== *)
(** ** The hotkeys file *)

Lemma str_eqb_neq (a b : str) : a <> b -> str_eqb a b = false.
Proof.
  intro N. destruct (str_eqb a b) eqn:E; [|reflexivity].
  apply str_eqb_eq in E. contradiction.
Qed.

Lemma has_key_app k (h h' : hotmap) : has_key k (h ++ h') = has_key k h || has_key k h'.
Proof. unfold has_key. apply existsb_app. Qed.

Lemma has_key_In k (h : hotmap) : has_key k h = true <-> In k (map fst h).
Proof.
  unfold has_key. rewrite existsb_exists, in_map_iff. split.
  - intros (e & He & E). apply str_eqb_eq in E. now exists e.
  - intros (e & E & He). exists e. split; [exact He|]. now apply str_eqb_eq.
Qed.

(** Filling a map from a table of defaults with distinct keys. *)
Lemma fill_defaults (ds : list (str * str)) :
  NoDup (map fst ds) ->
  forall h : hotmap,
    fold_left (fun h e => if has_key (fst e) h then h else h ++ [(fst e, PStr (snd e))]) ds h
    = h ++ as_hotmap (filter (fun d => negb (has_key (fst d) h)) ds).
Proof.
  induction ds as [|d ds IH]; intros N h; cbn [fold_left filter].
  - unfold as_hotmap. cbn [map]. now rewrite app_nil_r.
  - cbn [map] in N. inversion N as [|? ? Hn N']; subst.
    rewrite (IH N'). destruct (has_key (fst d) h) eqn:K; cbn [negb]; [reflexivity|].
    unfold as_hotmap. cbn [map]. rewrite <- app_assoc. cbn [app]. do 3 f_equal.
    apply filter_ext_in. intros d' Hd'.
    rewrite has_key_app. unfold has_key at 2. cbn [existsb fst].
    rewrite str_eqb_neq, !orb_false_r; [reflexivity|].
    intro E. apply Hn. rewrite <- E. now apply in_map.
Qed.

Lemma DEFAULT_HOTKEYS_distinct : NoDup (map fst DEFAULT_HOTKEYS).
Proof. repeat constructor; cbn; intuition discriminate. Qed.

(** X13: when the file holds an object, [load_hotkeys] returns its entries
    as they are and in their order (unknown actions and values that are
    not texts included), followed by the default binding of every action
    the file lacks, in the order of the defaults. *)
Theorem load_hotkeys_keeps_file_and_adds_defaults (h : hotmap) :
  load_hotkeys (FileObject h)
  = h ++ as_hotmap (filter (fun d => negb (has_key (fst d) h)) DEFAULT_HOTKEYS).
Proof. exact (fill_defaults DEFAULT_HOTKEYS DEFAULT_HOTKEYS_distinct h). Qed.

Lemma filter_none {A : Type} (f : A -> bool) (l : list A) :
  (forall x, In x l -> f x = false) -> filter f l = [].
Proof.
  induction l as [|x l IH]; intro H; [reflexivity|].
  cbn [filter]. rewrite (H x) by now left. apply IH. intros y Hy. apply H. now right.
Qed.

Lemma loaded_has_defaults (f : hotkeys_file) :
  forall d, In d DEFAULT_HOTKEYS -> has_key (fst d) (load_hotkeys f) = true.
Proof.
  intros d Hd.
  assert (A : has_key (fst d) (as_hotmap DEFAULT_HOTKEYS) = true).
  { apply has_key_In. unfold as_hotmap. rewrite map_map. cbn [fst].
    now apply in_map. }
  destruct f as [ | | h]; [exact A | exact A |].
  unfold load_hotkeys.
  rewrite (fill_defaults DEFAULT_HOTKEYS DEFAULT_HOTKEYS_distinct h), has_key_app.
  destruct (has_key (fst d) h) eqn:K; [reflexivity|]. cbn [orb].
  apply has_key_In. unfold as_hotmap. rewrite map_map. cbn [fst].
  apply in_map, filter_In. split; [exact Hd | now rewrite K].
Qed.

(** X14: whatever the file is (missing, unreadable or an object), the
    loaded map has an entry for each of the default actions, and loading
    a file that holds the loaded map gives the same map: nothing is added
    twice. *)
Theorem load_hotkeys_is_complete_and_stable (f : hotkeys_file) :
  forallb (fun d => has_key (fst d) (load_hotkeys f)) DEFAULT_HOTKEYS = true
  /\ load_hotkeys (FileObject (load_hotkeys f)) = load_hotkeys f.
Proof.
  split.
  - apply forallb_forall. apply loaded_has_defaults.
  - change (load_hotkeys (FileObject (load_hotkeys f)))
      with (fold_left (fun h e => if has_key (fst e) h then h
                                  else h ++ [(fst e, PStr (snd e))])
                      DEFAULT_HOTKEYS (load_hotkeys f)).
    rewrite (fill_defaults DEFAULT_HOTKEYS DEFAULT_HOTKEYS_distinct (load_hotkeys f)).
    rewrite filter_none; [unfold as_hotmap; cbn [map]; apply app_nil_r|].
    intros d Hd. now rewrite (loaded_has_defaults f d Hd).
Qed.

Lemma bindings_cover hm hs :
  Forall2 binding_of hm hs ->
  forall e, In e hm -> dict_get str_eqb ACTION_IDS (fst e) <> None.
Proof.
  induction 1 as [|e0 h hm hs [B _] F IH]; intros e He; [destruct He|].
  destruct He as [<-|He]; [congruence | now apply IH].
Qed.

(** X15: an entry of the file whose action is not one of [ACTION_IDS] is
    kept by [load_hotkeys] and makes the registration of the loaded map
    fail as a whole: the command answers Failed and no hotkey is left
    registered, not even those of the known actions. *)
Theorem unknown_action_in_file_fails_registration
  (accepts : table -> Z -> Z -> Z -> bool)
  (inputs : list (list command * getmessage))
  (h : hotmap) (k : str) (v : pyval) (q : nat) :
  In (k, v) h ->
  dict_get str_eqb ACTION_IDS k = None ->
  let th := hotkey_thread_func accepts inputs in
  let th' := handle_command accepts (Register (load_hotkeys (FileObject h)) (Some q)) th in
  registered_ids th' = [] /\ os_hotkeys th' = []
  /\ exists action why, responses th' = responses th ++ [(q, RespFailed action why)].
Proof.
  intros Hin Hk. cbv zeta. cbn [handle_command].
  destruct (do_register_outcome accepts (load_hotkeys (FileObject h)) (Some q) _
              (hotkey_thread_consistent accepts inputs))
    as [(hs & F & _) | (a & w & ->)].
  - exfalso. apply (bindings_cover _ _ F (k, v)); [|exact Hk].
    unfold load_hotkeys.
    rewrite (fill_defaults DEFAULT_HOTKEYS DEFAULT_HOTKEYS_distinct h).
    apply in_or_app. now left.
  - cbn [registered_ids os_hotkeys responses put]. repeat split. now exists a, w.
Qed.

Lemma unknown_action_in_file_fails_registration_witness :
  let h := [ (lit "create", PStr (lit "Ctrl+Alt+C")); (lit "resume", PStr (lit "Ctrl+Alt+R")) ] in
  let th := hotkey_thread_func accept_unowned [] in
  let th' := handle_command accept_unowned
               (Register (load_hotkeys (FileObject h)) (Some 0%nat)) th in
  registered_ids th' = [] /\ os_hotkeys th' = []
  /\ exists action why, responses th' = responses th ++ [(0%nat, RespFailed action why)].
Proof.
  apply (unknown_action_in_file_fails_registration accept_unowned []
           [ (lit "create", PStr (lit "Ctrl+Alt+C")); (lit "resume", PStr (lit "Ctrl+Alt+R")) ]
           (lit "resume") (PStr (lit "Ctrl+Alt+R")) 0%nat).
  - right. left. reflexivity.
  - reflexivity.
Defined.

(* ===================================================================== *)
(** ** The capture dialog: the list it builds *)

Lemma adjacent_differ_snoc (l : list str) (x : str) :
  adjacent_differ (l ++ [x])
  = adjacent_differ l && (is_empty l || negb (str_eqb (last l []) x)).
Proof.
  induction l as [|a l IH]; [reflexivity|].
  destruct l as [|b l].
  - cbn. now rewrite andb_true_r.
  - change ((a :: b :: l) ++ [x]) with (a :: (b :: l) ++ [x]).
    change (adjacent_differ (a :: (b :: l) ++ [x]))
      with (negb (str_eqb a b) && adjacent_differ ((b :: l) ++ [x])).
    rewrite IH.
    change (adjacent_differ (a :: b :: l))
      with (negb (str_eqb a b) && adjacent_differ (b :: l)).
    change (last (a :: b :: l) []) with (last (b :: l) []).
    cbn [is_empty orb]. now rewrite andb_assoc.
Qed.

Lemma commit_capture_adjacent (vk mods : Z) (caps : list str) :
  adjacent_differ caps = true -> adjacent_differ (commit_capture vk mods caps) = true.
Proof.
  intro H. unfold commit_capture. cbv zeta.
  destruct (is_empty caps || negb (str_eqb (last caps []) (hotkey_to_string mods vk))) eqn:E;
    [|exact H].
  now rewrite adjacent_differ_snoc, H, E.
Qed.

Section CaptureList.

Variable timeout : Z.
Variable first_of : list Z -> Z.
Hypothesis first_of_In : forall l, l <> [] -> In (first_of l) l.

Local Abbreviation step := (dialog_step timeout first_of).
Local Abbreviation run := (run_dialog timeout first_of).

Arguments sample_non_mod : simpl never.
Arguments sample_mods : simpl never.
Arguments hotkey_to_string : simpl never.
Arguments commit_capture : simpl never.

(** A step leaves the list as it is or commits once. *)
Lemma step_captures c e :
  captures (step c e) = captures c
  \/ exists vk mods, captures (step c e) = commit_capture vk mods (captures c).
Proof.
  destruct e as [t keys | | ]; cbn [dialog_step].
  2,3: destruct (done c); now left.
  unfold poll.
  destruct (done c); [now left|].
  destruct (t >? timeout); [now left|].
  destruct (negb (is_empty (sample_non_mod keys)) && is_empty (prev_non_mod c));
    [now left|].
  destruct (is_empty (sample_non_mod keys) && negb (is_empty (prev_non_mod c)));
    [|now left].
  cbn [captures].
  destruct (pressed_non_mod c && truthy (last_non_mod_vk c)); [|now left].
  destruct (last_non_mod_vk c) as [vk|]; [|now left].
  right. now exists vk, (last_mods c).
Qed.

Lemma steps_keep_adjacent evs : forall c,
  adjacent_differ (captures c) = true ->
  adjacent_differ (captures (fold_left step evs c)) = true.
Proof.
  induction evs as [|e evs IH]; intros c H; cbn [fold_left]; [exact H|].
  apply IH. destruct (step_captures c e) as [-> | (vk & mods & ->)];
    [exact H | now apply commit_capture_adjacent].
Qed.

Lemma steps_extend evs : forall c,
  exists added, captures (fold_left step evs c) = captures c ++ added.
Proof.
  induction evs as [|e evs IH]; intro c; cbn [fold_left].
  - exists []. now rewrite app_nil_r.
  - destruct (IH (step c e)) as (added & ->).
    destruct (step_captures c e) as [-> | (vk & mods & ->)]; [now exists added|].
    destruct (commit_capture_cases vk mods (captures c)) as [-> | ->];
      [now exists added|].
    exists ([hotkey_to_string mods vk] ++ added). now rewrite <- app_assoc.
Qed.

(** While a key is held, the dialog keeps the key and the mask it took
    when the key went down. *)
Lemma held_keys_keep_press holds : forall c,
  done c = false -> pressed_non_mod c = true -> prev_non_mod c <> [] ->
  forallb (holds_key timeout) holds = true ->
  let c' := fold_left step holds c in
  captures c' = captures c /\ last_non_mod_vk c' = last_non_mod_vk c
  /\ last_mods c' = last_mods c /\ done c' = false
  /\ pressed_non_mod c' = true /\ prev_non_mod c' <> [].
Proof.
  induction holds as [|e holds IH]; intros c D P N H; cbn [fold_left].
  - cbv zeta. repeat split; assumption.
  - cbn [forallb] in H. apply andb_true_iff in H as [He H].
    destruct e as [t keys | | ]; cbn [holds_key] in He; try discriminate He.
    apply andb_true_iff in He as [Ht Hk]. apply Z.leb_le in Ht.
    apply negb_true_iff in Hk.
    assert (E : step c (Tick t keys)
                = mkCapture (captures c) (last_non_mod_vk c) (last_mods c) false
                            (pressed_non_mod c) (sample_non_mod keys)).
    { cbn [dialog_step]. unfold poll. rewrite D.
      replace (t >? timeout) with false by lia.
      apply is_empty_cons in N. rewrite Hk, N. reflexivity. }
    rewrite E.
    specialize (IH (mkCapture (captures c) (last_non_mod_vk c) (last_mods c) false
                              (pressed_non_mod c) (sample_non_mod keys))).
    cbn [done pressed_non_mod prev_non_mod captures last_non_mod_vk last_mods] in IH.
    apply IH; [reflexivity | exact P | now apply is_empty_cons | exact H].
Qed.

Lemma sample_mods_range keys : 0 <= sample_mods keys <= 15.
Proof.
  unfold sample_mods.
  destruct (key_down keys 0x11), (key_down keys 0x12), (key_down keys 0x10),
    (key_down keys 0x5B), (key_down keys 0x5C);
    vm_compute; split; intro X; discriminate X.
Qed.

End CaptureList.

(** X16: the list a capture session returns never holds the same text
    twice in a row. *)
Theorem returned_list_has_no_repeats
  (timeout : Z) (first_of : list Z -> Z) (evs : list ui_event) (l : list str) :
  capture_hotkey_dialog timeout first_of evs = Some (Some l) ->
  adjacent_differ l = true.
Proof.
  unfold capture_hotkey_dialog. cbv zeta.
  pose proof (steps_keep_adjacent timeout first_of evs dialog_start eq_refl) as A.
  fold (run_dialog timeout first_of evs) in A.
  destruct (done (run_dialog timeout first_of evs)); [|discriminate].
  destruct (is_empty (captures (run_dialog timeout first_of evs))); [discriminate|].
  intro H. injection H as <-. exact A.
Qed.

Lemma returned_list_has_no_repeats_witness :
  adjacent_differ [lit "Ctrl+K"; lit "F5"; lit "Ctrl+K"] = true.
Proof.
  apply (returned_list_has_no_repeats 12 first_listed
           [ Tick 1 (keys_down [0x11; 0x4B]); Tick 2 (keys_down []);
             Tick 3 (keys_down [0x11; 0x4B]); Tick 4 (keys_down [0x11]);
             Tick 5 (keys_down [0x74]); Tick 6 (keys_down []);
             Tick 7 (keys_down [0x11; 0x4B]); Tick 8 (keys_down []); Cancel ]).
  reflexivity.
Defined.

(** X17: what has been committed stays: whatever happens to the dialog
    later (more samples, the timeout, Save or Cancel), the list only
    grows at its end. *)
Theorem commits_are_never_dropped
  (timeout : Z) (first_of : list Z -> Z) (evs more : list ui_event) :
  exists added,
    captures (run_dialog timeout first_of (evs ++ more))
    = captures (run_dialog timeout first_of evs) ++ added.
Proof.
  unfold run_dialog. rewrite fold_left_app. apply steps_extend.
Qed.

(** X18: in an open dialog that has seen no key down in its last sample,
    a sample with a non-modifier key down, then any number of samples
    with some non-modifier key still down, then a sample with none down
    (all of them in time) is one call of [commit_capture], with the key
    and the modifiers of the first of these samples: what is held or
    released in between changes nothing. *)
Theorem press_hold_release_commits
  (timeout : Z) (first_of : list Z -> Z)
  (evs holds : list ui_event) (tP tR : Z) (keysP keysR : Z -> Z) :
  (forall l, l <> [] -> In (first_of l) l) ->
  done (run_dialog timeout first_of evs) = false ->
  prev_non_mod (run_dialog timeout first_of evs) = [] ->
  tP <= timeout -> sample_non_mod keysP <> [] ->
  forallb (holds_key timeout) holds = true ->
  tR <= timeout -> sample_non_mod keysR = [] ->
  captures (run_dialog timeout first_of (evs ++ Tick tP keysP :: holds ++ [Tick tR keysR]))
  = commit_capture (first_of (sample_non_mod keysP)) (sample_mods keysP)
                   (captures (run_dialog timeout first_of evs)).
Proof.
  intros F D P HP Press H HR Release.
  unfold run_dialog. rewrite fold_left_app. fold (run_dialog timeout first_of evs).
  set (c := run_dialog timeout first_of evs) in *.
  cbn [fold_left]. rewrite fold_left_app. cbn [fold_left].
  assert (V : (first_of (sample_non_mod keysP) =? 0) = false).
  { apply Z.eqb_neq. pose proof (F _ Press) as I.
    apply sample_non_mod_In in I. unfold VK_MIN in I. lia. }
  assert (E1 : dialog_step timeout first_of c (Tick tP keysP)
               = mkCapture (captures c) (Some (first_of (sample_non_mod keysP)))
                           (sample_mods keysP) false true (sample_non_mod keysP)).
  { cbn [dialog_step]. unfold poll. rewrite D, P.
    replace (tP >? timeout) with false by lia.
    apply is_empty_cons in Press. rewrite Press. reflexivity. }
  rewrite E1.
  set (c1 := mkCapture (captures c) (Some (first_of (sample_non_mod keysP)))
                       (sample_mods keysP) false true (sample_non_mod keysP)).
  destruct (held_keys_keep_press timeout first_of holds c1 eq_refl eq_refl Press H)
    as (K1 & K2 & K3 & K4 & K5 & K6).
  set (c2 := fold_left (dialog_step timeout first_of) holds c1) in *.
  cbn [dialog_step]. unfold poll. rewrite K4.
  replace (tR >? timeout) with false by lia.
  apply is_empty_cons in K6. rewrite Release, K6. cbn [is_empty negb andb captures].
  rewrite K5, K2, K3, K1. unfold c1. cbn [last_non_mod_vk last_mods captures truthy].
  now rewrite V.
Qed.

Lemma press_hold_release_commits_witness :
  captures (run_dialog 12 first_listed
              ([Tick 1 (keys_down [0x10])]
               ++ Tick 2 (keys_down [0x10; 0x4B])
                  :: [Tick 3 (keys_down [0x4B; 0x4C]); Tick 4 (keys_down [0x11; 0x4C])]
                  ++ [Tick 5 (keys_down [0x11])]))
  = commit_capture (first_listed (sample_non_mod (keys_down [0x10; 0x4B])))
                   (sample_mods (keys_down [0x10; 0x4B]))
                   (captures (run_dialog 12 first_listed [Tick 1 (keys_down [0x10])])).
Proof.
  apply (press_hold_release_commits 12 first_listed
           [Tick 1 (keys_down [0x10])]
           [Tick 3 (keys_down [0x4B; 0x4C]); Tick 4 (keys_down [0x11; 0x4C])]
           2 5 (keys_down [0x10; 0x4B]) (keys_down [0x11]));
    try reflexivity; try lia.
  - exact first_listed_In.
  - vm_compute. discriminate.
Defined.

(** X19: every text a capture session commits is the text of a binding
    whose modifiers lie in 0..15 and whose key is one of the scanned
    codes VK_MIN..VK_MAX other than the five modifier keys; when that key
    is one the codec reads back, the text parses to that very binding, so
    it can be registered as recorded. *)
Theorem committed_text_is_a_binding
  (timeout : Z) (first_of : list Z -> Z) (evs : list ui_event) (hk : str) :
  (forall l, l <> [] -> In (first_of l) l) ->
  In hk (captures (run_dialog timeout first_of evs)) ->
  exists mods vk,
    hk = hotkey_to_string mods vk
    /\ 0 <= mods <= 15
    /\ VK_MIN <= vk <= VK_MAX /\ is_modifier_vk vk = false
    /\ (roundtrip_key vk = true -> parse_hotkey_string hk = Ok (mods, vk)).
Proof.
  intros F Hin.
  destruct (run_invariant timeout first_of F evs) as [A _].
  destruct (A hk Hin) as (vk & mods & R & ->).
  destruct R as (evs0 & tR & keysR & evs3 & _ & P & _).
  destruct P as (evs1 & tP & keysP & evs2 & _ & _ & _ & HP & _ & ->).
  apply sample_non_mod_In in HP as (Rv & Mv & _).
  pose proof (sample_mods_range keysP) as Rm.
  exists (sample_mods keysP), vk. repeat split; try assumption; try lia.
  intro K. apply parses_to_spec. rewrite roundtrip_exact by assumption. exact K.
Qed.

Lemma committed_text_is_a_binding_witness :
  exists mods vk,
    lit "Ctrl+Alt+K" = hotkey_to_string mods vk
    /\ 0 <= mods <= 15
    /\ VK_MIN <= vk <= VK_MAX /\ is_modifier_vk vk = false
    /\ (roundtrip_key vk = true -> parse_hotkey_string (lit "Ctrl+Alt+K") = Ok (mods, vk)).
Proof.
  apply (committed_text_is_a_binding 12 first_listed
           [ Tick 1 (keys_down [0x11; 0x12; 0x4B]); Tick 2 (keys_down []) ]
           (lit "Ctrl+Alt+K") first_listed_In).
  vm_compute. left. reflexivity.
Defined.

(* ===================================================================== *)
(** ** The event dispatcher: what it starts *)

Lemma handle_hotkey_action yes id_ a :
  handle_hotkey yes id_ a
  = mkApp (RECORDING_PAUSE_HOTKEYS a) (dispatched a ++ action_for yes id_).
Proof.
  unfold handle_hotkey, action_for. cbv zeta.
  change (action_id "create") with 1. change (action_id "toggle") with 2.
  change (action_id "delete") with 3. change (action_id "suspend_enh") with 4.
  destruct (id_ =? 1); [reflexivity|]. destruct (id_ =? 2); [reflexivity|].
  destruct (id_ =? 3); [destruct yes; [reflexivity|] | destruct (id_ =? 4); [reflexivity|]].
  all: destruct a; cbn [RECORDING_PAUSE_HOTKEYS dispatched]; now rewrite app_nil_r.
Qed.

Lemma check_queue_clear items : forall a,
  RECORDING_PAUSE_HOTKEYS a = false ->
  check_queue items a = mkApp false (dispatched a ++ actions_of items).
Proof.
  unfold check_queue, actions_of.
  induction items as [|[item yes] items IH]; intros a H; cbn [fold_left flat_map].
  - destruct a. cbn in *. subst. now rewrite app_nil_r.
  - destruct item as [id_ | f].
    + rewrite H, handle_hotkey_action, IH by (now rewrite H).
      cbn [dispatched]. now rewrite <- app_assoc.
    + rewrite IH by exact H. reflexivity.
Qed.

(** X20: with the flag clear, [check_queue] goes through the queue in
    order and starts, once each, the action of every hotkey item whose id
    is that of create, toggle or suspend, and the delete action for an
    item with the id of delete only when the user answers the
    confirmation with yes; it starts nothing for a delete the user
    declines, for an unknown id or for an error item.  With the flag set
    it starts nothing.  It never changes the flag. *)
Theorem check_queue_starts_known_actions_in_order
  (items : list (event * bool)) (a : App) :
  dispatched (check_queue items a)
  = dispatched a ++ (if RECORDING_PAUSE_HOTKEYS a then [] else actions_of items)
  /\ RECORDING_PAUSE_HOTKEYS (check_queue items a) = RECORDING_PAUSE_HOTKEYS a.
Proof.
  destruct (RECORDING_PAUSE_HOTKEYS a) eqn:F.
  - rewrite check_queue_drops_while_flag_set by exact F.
    split; [now rewrite app_nil_r | exact F].
  - rewrite check_queue_clear by exact F. split; reflexivity.
Qed.

(** X21: the two threads together: while the hotkey thread is in its loop
    and no recording flag is set, the hotkey items that reach
    [check_queue] are the WM_HOTKEY messages the thread received, in the
    order it received them, and [check_queue] starts the action of each
    whose id is known, the delete action only when the user, asked at
    that item, answers yes. *)
Theorem fired_hotkeys_reach_their_actions
  (accepts : table -> Z -> Z -> Z -> bool)
  (inputs : list (list command * getmessage))
  (items : list (event * bool)) :
  running (hotkey_thread_func accepts inputs) = true ->
  map fst items = event_queue (hotkey_thread_func accepts inputs) ->
  map fst items
  = flat_map (fun inp =>
                match snd inp with
                | GM_message message wParam =>
                    if message =? WM_HOTKEY then [Fired wParam] else []
                | GM_error => [Fault GetMessageFailed]
                | _ => []
                end) inputs
  /\ dispatched (check_queue items app_start)
     = flat_map (fun item =>
                   match item with
                   | (Fired wParam, askyesno) => action_for askyesno wParam
                   | (Fault _, _) => []
                   end) items.
Proof.
  intros R Q. split.
  - rewrite Q. unfold hotkey_thread_func in *.
    rewrite (proj2 (running_trace accepts inputs thread_start R)).
    change (event_queue thread_start) with (@nil event). cbn [app].
    clear. induction inputs as [|[cmds gm] rest IH]; [reflexivity|].
    cbn [flat_map snd]. rewrite IH. reflexivity.
  - rewrite check_queue_clear by reflexivity. reflexivity.
Qed.

Lemma fired_hotkeys_reach_their_actions_witness :
  let items := [ (Fired 2, true); (Fault GetMessageFailed, true); (Fired 3, false);
                 (Fired 9, true); (Fired 3, true); (Fired 4, false) ] in
  dispatched (check_queue items app_start) = [Toggle; Delete; SuspendEnh].
Proof.
  cbv zeta.
  refine (eq_trans (proj2 (fired_hotkeys_reach_their_actions accept_unowned
           [ ([Register (as_hotmap DEFAULT_HOTKEYS) (Some 0%nat)], GM_message WM_HOTKEY 2);
             ([], GM_error); ([], GM_message WM_HOTKEY 3); ([], GM_message WM_HOTKEY 9);
             ([], GM_message WM_HOTKEY 3); ([], GM_message WM_HOTKEY 4) ]
           _ _ _)) _); reflexivity.
Defined.

(* ===================================================================== *)
(** ** The codec: blanks; the dialog: no key down *)

(** X22: white space around the fields of a text and empty fields between
    separators do not matter: two texts whose fields, stripped and with
    the empty ones left out, are the same (and not none at all) parse
    alike, to a binding or to an error. *)
Theorem parse_ignores_blanks_and_empty_fields (fs gs : list str) :
  Forall (fun f => no_plus f = true) fs ->
  Forall (fun f => no_plus f = true) gs ->
  filter nonempty (map strip fs) = filter nonempty (map strip gs) ->
  filter nonempty (map strip fs) <> [] ->
  parse_hotkey_string (join (lit "+") fs) = parse_hotkey_string (join (lit "+") gs).
Proof.
  intros Ff Fg E N.
  pose proof (parts_of_fields fs Ff) as Pf.
  pose proof (parts_of_fields gs Fg) as Pg.
  rewrite (parse_by_parts (join (lit "+") fs)) by (rewrite Pf; exact N).
  rewrite (parse_by_parts (join (lit "+") gs)) by (rewrite Pg, <- E; exact N).
  now rewrite Pf, Pg, E.
Qed.

Lemma parse_ignores_blanks_and_empty_fields_witness :
  parse_hotkey_string (lit " ctrl + + F5 ") = parse_hotkey_string (lit "ctrl+F5").
Proof.
  apply (parse_ignores_blanks_and_empty_fields
           [lit " ctrl "; lit " "; lit " F5 "] [lit "ctrl"; lit "F5"]).
  - repeat constructor.
  - repeat constructor.
  - reflexivity.
  - discriminate.
Defined.

Lemma no_scanned_key_keeps_idle (timeout : Z) (first_of : list Z -> Z) evs : forall c,
  prev_non_mod c = [] ->
  (forall t keys, In (Tick t keys) evs -> sample_non_mod keys = []) ->
  captures (fold_left (dialog_step timeout first_of) evs c) = captures c.
Proof.
  induction evs as [|e evs IH]; intros c P H; cbn [fold_left]; [reflexivity|].
  assert (S : captures (dialog_step timeout first_of c e) = captures c
              /\ prev_non_mod (dialog_step timeout first_of c e) = []).
  { destruct e as [t keys | | ]; cbn [dialog_step].
    2,3: destruct (done c); now split.
    unfold poll. destruct (done c); [now split|].
    destruct (t >? timeout); [now split|].
    rewrite (H t keys) by now left. rewrite P. cbn. now split. }
  destruct S as [S1 S2].
  rewrite IH; [exact S1 | exact S2 |].
  intros t keys Hin. apply (H t keys). now right.
Qed.

(** X23: a session in which no sample finds a scanned key code down (a
    code of 1..254 other than 0x10, 0x11, 0x12, 0x5B and 0x5C; the codes
    of the left and right Shift, Ctrl and Alt keys are scanned) commits
    no combo, and returns None once it is closed, whatever the codes 0x10,
    0x11, 0x12, 0x5B and 0x5C do. *)
Theorem no_scanned_key_commits_nothing
  (timeout : Z) (first_of : list Z -> Z) (evs : list ui_event) :
  (forall t keys, In (Tick t keys) evs -> sample_non_mod keys = []) ->
  captures (run_dialog timeout first_of evs) = []
  /\ capture_hotkey_dialog timeout first_of evs
     = if done (run_dialog timeout first_of evs) then Some None else None.
Proof.
  intro H.
  assert (C : captures (run_dialog timeout first_of evs) = []).
  { exact (no_scanned_key_keeps_idle timeout first_of evs dialog_start eq_refl H). }
  split; [exact C|]. unfold capture_hotkey_dialog. cbv zeta. now rewrite C.
Qed.

Lemma no_scanned_key_commits_nothing_witness :
  let evs := [ Tick 1 (keys_down [0x5B]); Tick 2 (keys_down [0x5B; 0x5C]);
               Tick 3 (keys_down []); Save ] in
  captures (run_dialog 12 first_listed evs) = []
  /\ capture_hotkey_dialog 12 first_listed evs
     = if done (run_dialog 12 first_listed evs) then Some None else None.
Proof.
  apply (no_scanned_key_commits_nothing 12 first_listed
           [ Tick 1 (keys_down [0x5B]); Tick 2 (keys_down [0x5B; 0x5C]);
             Tick 3 (keys_down []); Save ]).
  intros t keys [E | [E | [E | [E | []]]]]; try discriminate E;
    injection E as _ <-; reflexivity.
Defined.
